(** * pyaptly: the dependency-driven command scheduler

    A shallow embedding of [pyaptly/__init__.py]: the [Command] class
    ([require], [provide], [execute], [order_commands]) and the
    [SystemStateReader] oracle ([read_gpg], [has_dependency]).

    Python objects live in a store indexed by their [id]; a list of commands
    is a list of references, so that two entries of a list may be the same
    object.  Exceptions are results of an error monad. *)

From Stdlib Require Import Ascii.
From stdpp Require Import gmap strings list functions.

Open Scope string_scope.

(** ** Exceptions and results *)

Inductive exn :=
| AssertionError
| AttributeError
| ValueError (msg : string) (args : list string)
| TypeError (msg : string)
| IndexError (msg : string)
| KeyError (key : nat)
| CalledProcessError (returncode : Z) (cmd : list string).

Inductive outcome (A : Type) :=
| Return (a : A)
| Raise (e : exn).

Arguments Return {A} a.
Arguments Raise {A} e.

#[global] Instance outcome_ret : MRet outcome := λ A a, Return a.

#[global] Instance outcome_bind : MBind outcome := λ A B f m,
  match m with
  | Return a => f a
  | Raise e => Raise e
  end.

(** ** Capability tags and commands *)

(** A tag is the tuple [(type_, identifier)]. *)
Abbreviation tag := (string * string)%type.

(** The attributes set by [Command.__init__]. *)
Record Command := mkCommand {
  cmd : list string;
  _requires : gset tag;
  _provides : gset tag;
  _finished : option Z
}.

(** [Command(cmd)]: both sets empty, no result yet. *)
Definition Command__init__ (cmd : list string) : Command :=
  {| cmd := cmd; _requires := ∅; _provides := ∅; _finished := None |}.

(** [" ".join(self.cmd)] *)
Definition Command__str__ (c : Command) : string := String.concat " " (cmd c).

(** What a reference can point to: [None], an instance whose class is exactly
    [Command], or an instance of any other class. *)
Inductive pyobj :=
| ONone
| OCommand (c : Command)
| OOther (cls : string).

(** A reference is the [id] of the object. *)
Abbreviation ref := nat.

Abbreviation heap := (ref → pyobj).

(** [c.__class__ == Command] *)
Definition is_Command (h : heap) (c : ref) : bool :=
  match h c with
  | OCommand _ => true
  | _ => false
  end.

(** [[c for c in commands if c.__class__ == Command]] *)
Definition Command_entries (h : heap) (commands : list ref) : list ref :=
  filter (λ c, is_Command h c = true) commands.

(** Reading an attribute of [Command] through a reference. *)
Definition getattr {A} (field : Command → A) (h : heap) (c : ref) : outcome A :=
  match h c with
  | OCommand o => Return (field o)
  | _ => Raise AttributeError
  end.

(** ** [Command.require] and [Command.provide] *)

Definition required_kinds : list string := ["snapshot"; "mirror"; "repo"; "any"].
Definition provided_kinds : list string := ["snapshot"; "mirror"; "repo"; "publish"].

Definition add_require (t : tag) (c : Command) : Command :=
  {| cmd := cmd c; _requires := {[ t ]} ∪ _requires c;
     _provides := _provides c; _finished := _finished c |}.

Definition add_provide (t : tag) (c : Command) : Command :=
  {| cmd := cmd c; _requires := _requires c;
     _provides := {[ t ]} ∪ _provides c; _finished := _finished c |}.

Definition require (self : ref) (type_ identifier : string) (h : heap)
  : outcome unit * heap :=
  match h self with
  | OCommand c =>
      if decide (type_ ∈ required_kinds)
      then (Return (), <[ self := OCommand (add_require (type_, identifier) c) ]> h)
      else (Raise AssertionError, h)
  | _ => (Raise AttributeError, h)
  end.

Definition provide (self : ref) (type_ identifier : string) (h : heap)
  : outcome unit * heap :=
  match h self with
  | OCommand c =>
      if decide (type_ ∈ provided_kinds)
      then (Return (), <[ self := OCommand (add_provide (type_, identifier) c) ]> h)
      else (Raise AssertionError, h)
  | _ => (Raise AttributeError, h)
  end.

(** ** Iterating over a set

    [for req in cmd._requires] enumerates the set in an order Python leaves
    open: it depends on the hashes and on the history of the set object, and
    it is stable as long as the set is not modified.  The order is a
    parameter: any enumeration, per object, of the elements of the set. *)
Record iteration_order := {
  enum : ref → gset tag → list tag;
  enum_perm : ∀ c s, enum c s ≡ₚ elements s
}.

Definition elements_order : iteration_order :=
  {| enum := λ _ s, elements s; enum_perm := λ _ s, reflexivity (elements s) |}.

(** ** [Command.order_commands] *)

Record loop_state := {
  have_requirements : gset tag;
  scheduled_cmdids : list nat;
  something_changed : bool
}.

Section order_commands.

Context (order : iteration_order) (h : heap).
Context (has_dependency_cb : tag → outcome bool).

(** The inner [for req in cmd._requires] with its [break]; the result is
    [can_schedule]. *)
Fixpoint can_schedule (have : gset tag) (reqs : list tag) : outcome bool :=
  match reqs with
  | [] => Return true
  | req :: reqs' =>
      if decide (req ∈ have) then can_schedule have reqs'
      else
        b ← has_dependency_cb req;
        if b : bool then can_schedule have reqs' else Return false
  end.

(** One iteration of [for cmd in commands]. *)
Definition visit (st : loop_state) (cmd : ref) : outcome loop_state :=
  let cmdid := cmd in
  if decide (cmdid ∈ scheduled_cmdids st) then Return st
  else
    reqs ← getattr _requires h cmd;
    ok ← can_schedule (have_requirements st) (enum order cmd reqs);
    if ok : bool then
      provs ← getattr _provides h cmd;
      Return {| have_requirements := have_requirements st ∪ provs;
                scheduled_cmdids := scheduled_cmdids st ++ [cmdid];
                something_changed := true |}
    else Return st.

(** The whole [for cmd in commands]. *)
Fixpoint scan (commands : list ref) (st : loop_state) : outcome loop_state :=
  match commands with
  | [] => Return st
  | cmd :: rest => st' ← visit st cmd; scan rest st'
  end.

Definition clear_changed (st : loop_state) : loop_state :=
  {| have_requirements := have_requirements st;
     scheduled_cmdids := scheduled_cmdids st;
     something_changed := false |}.

(** [while something_changed: ...]; [None] when [fuel] passes were not
    enough to leave the loop. *)
Fixpoint while_loop (fuel : nat) (commands : list ref) (st : loop_state)
  : option (outcome loop_state) :=
  if something_changed st then
    match fuel with
    | 0 => None
    | S fuel' =>
        match scan commands (clear_changed st) with
        | Return st' => while_loop fuel' commands st'
        | Raise e => Some (Raise e)
        end
    end
  else Some (Return st).

(** [commands_by_id[id(c)] = c] for every [c]. *)
Definition build_commands_by_id (commands : list ref) : gmap nat ref :=
  foldl (λ m c, <[ c := c ]> m) ∅ commands.

(** [commands_by_id[cmdid]] *)
Definition getitem (commands_by_id : gmap nat ref) (cmdid : nat) : outcome ref :=
  match commands_by_id !! cmdid with
  | Some c => Return c
  | None => Raise (KeyError cmdid)
  end.

Fixpoint for_each {A B} (f : A → outcome B) (l : list A) : outcome (list B) :=
  match l with
  | [] => Return []
  | a :: l' => b ← f a; bs ← for_each f l'; Return (b :: bs)
  end.

(** The code after the loop, from [planned_commands] to [return]. *)
Definition finish (commands : list ref) (commands_by_id : gmap nat ref)
    (scheduled_cmdids : list nat) : outcome (list ref) :=
  planned_commands ← for_each (getitem commands_by_id) scheduled_cmdids;
  unresolved ← for_each (getitem commands_by_id)
    (filter (λ cmdid, cmdid ∉ scheduled_cmdids) scheduled_cmdids);
  if decide (0 < length unresolved) then
    names ← for_each (getattr Command__str__ h) unresolved;
    Raise (ValueError "Commands with unresolved deps: %s" names)
  else
    let scheduled_set : gset nat := list_to_set planned_commands in
    let incoming_set : gset nat := list_to_set commands in
    if decide (incoming_set = scheduled_set) then Return planned_commands
    else Raise AssertionError.

Definition initial_state : loop_state :=
  {| have_requirements := ∅; scheduled_cmdids := []; something_changed := true |}.

(** [order_commands] with a bound on the number of passes of the [while]
    loop.  The dictionaries [provided_by_id] and [required_by_id] are filled
    and never read; the calls to the logger have no effect on the result. *)
Definition order_commands_fuel (fuel : nat) (commands : list ref)
  : option (outcome (list ref)) :=
  let commands := Command_entries h commands in
  let commands_by_id := build_commands_by_id commands in
  match while_loop fuel commands initial_state with
  | None => None
  | Some (Raise e) => Some (Raise e)
  | Some (Return st) => Some (finish commands commands_by_id (scheduled_cmdids st))
  end.

(** Every pass but the last one schedules a command, so one pass more than
    there are entries is enough ([order_commands_total] below). *)
Definition order_commands (commands : list ref) : option (outcome (list ref)) :=
  order_commands_fuel (S (length commands)) commands.

(** *** Notions used to state the properties of the loops *)

(** A requirement is met when it is among the provided tags collected so far
    or the callback answers [True] for it. *)
Definition met (have : gset tag) (req : tag) : Prop :=
  req ∈ have ∨ has_dependency_cb req = Return true.

(** What one visit does: nothing, or it schedules the command. *)
Inductive visit_spec (st : loop_state) (c : ref) : loop_state → Prop :=
| visit_skip : visit_spec st c st
| visit_schedule o :
    c ∉ scheduled_cmdids st →
    h c = OCommand o →
    Forall (met (have_requirements st)) (elements (_requires o)) →
    visit_spec st c
      {| have_requirements := have_requirements st ∪ _provides o;
         scheduled_cmdids := scheduled_cmdids st ++ [c];
         something_changed := true |}.

(** [t] is provided by a command scheduled at a position before [i]. *)
Definition provided_before (l : list ref) (i : nat) (t : tag) : Prop :=
  ∃ j P p, j < i ∧ l !! j = Some P ∧ h P = OCommand p ∧ t ∈ _provides p.

(** The invariant of the two loops, for the filtered input [cs]. *)
Record sched_inv (cs : list ref) (st : loop_state) : Prop := {
  inv_nodup : NoDup (scheduled_cmdids st);
  inv_incl : ∀ c, c ∈ scheduled_cmdids st → c ∈ cs;
  inv_have : ∀ t, t ∈ have_requirements st →
    provided_before (scheduled_cmdids st) (length (scheduled_cmdids st)) t;
  inv_prec : ∀ i D d t,
    scheduled_cmdids st !! i = Some D → h D = OCommand d → t ∈ _requires d →
    has_dependency_cb t ≠ Return true →
    provided_before (scheduled_cmdids st) i t
}.

(** A visit leaves the state as it is, or raises the flag and lengthens the
    schedule. *)
Definition progress (st st' : loop_state) : Prop :=
  st' = st ∨
  (something_changed st' = true ∧
   length (scheduled_cmdids st) < length (scheduled_cmdids st')).

(** [e] is what the callback raises for a requirement of a command of [l]. *)
Definition raised_by_callback (l : list ref) (e : exn) : Prop :=
  ∃ c o t, c ∈ l ∧ h c = OCommand o ∧ t ∈ _requires o ∧
           has_dependency_cb t = Raise e.

(** The callback answers every query. *)
Definition always_answers : Prop := ∀ t, ∃ b, has_dependency_cb t = Return b.

End order_commands.

(** ** [Command.execute]

    The outside world is the list of argument vectors launched so far; what
    a launch gives (the return code of the process, or an error of the launch
    itself) is a parameter that may depend on everything launched before. *)

Record world := {
  objects : heap;
  calls : list (list string)
}.

Definition set_finished (r : Z) (c : Command) : Command :=
  {| cmd := cmd c; _requires := _requires c;
     _provides := _provides c; _finished := Some r |}.

Section execute.

Context (launch : list (list string) → list string → outcome Z).

(** [subprocess.check_call(args)]: [0] when the process returns [0],
    [CalledProcessError] otherwise. *)
Definition check_call (args : list string) (w : world) : outcome Z * world :=
  let w' := {| objects := objects w; calls := calls w ++ [args] |} in
  match launch (calls w) args with
  | Return returncode =>
      if decide (returncode = 0%Z) then (Return 0%Z, w')
      else (Raise (CalledProcessError returncode args), w')
  | Raise e => (Raise e, w')
  end.

Definition execute (self : ref) (w : world) : outcome Z * world :=
  match objects w self with
  | OCommand c =>
      match _finished c with
      | Some r => (Return r, w)
      | None =>
          match check_call (cmd c) w with
          | (Return r, w') =>
              (Return r,
               {| objects := <[ self := OCommand (set_finished r c) ]> (objects w');
                  calls := calls w' |})
          | (Raise e, w') => (Raise e, w')
          end
      end
  | _ => (Raise AttributeError, w)
  end.

(** [n] calls of [execute] in a row: the results, and the world after. *)
Fixpoint execute_times (n : nat) (self : ref) (w : world)
  : list (outcome Z) * world :=
  match n with
  | 0 => ([], w)
  | S n' =>
      let '(r, w') := execute self w in
      let '(rs, w'') := execute_times n' self w' in
      (r :: rs, w'')
  end.

End execute.

(** ** [SystemStateReader] *)

Record SystemStateReader := {
  gpg_keys : gset string;
  mirrors : gset string;
  snapshots : gset string
}.

(** [SystemStateReader()] *)
Definition SystemStateReader__init__ : SystemStateReader :=
  {| gpg_keys := ∅; mirrors := ∅; snapshots := ∅ |}.

(** [(prefix + "%s") % args] for a tuple [args]: one conversion takes one
    argument. *)
Definition percent_s (prefix : string) (args : list string) : outcome string :=
  match args with
  | [] => Raise (TypeError "not enough arguments for format string")
  | [a] => Return (prefix ++ a)
  | _ :: _ :: _ =>
      Raise (TypeError "not all arguments converted during string formatting")
  end.

Definition has_dependency (dependency : tag) (self : SystemStateReader)
  : outcome bool * SystemStateReader :=
  let '(type_, name) := dependency in
  if decide (type_ = "mirror") then
    (Return (bool_decide (name ∈ mirrors self)), self)
  else if decide (type_ = "snapshot") then
    (Return (bool_decide (name ∈ snapshots self)), self)
  else if decide (type_ = "gpg_key") then
    (Return (bool_decide (name ∈ gpg_keys self)), self)
  else
    (msg ← percent_s "Unknown dependency to resolve: " [type_; name];
     Raise (ValueError msg []), self).

(** [state.has_dependency], the callback handed to [order_commands]. *)
Definition oracle (self : SystemStateReader) : tag → outcome bool :=
  λ dependency, (has_dependency dependency self).1.

(** [s.split(sep)] for a separator of one character. *)
Fixpoint split (sep : ascii) (s : string) : list string :=
  match s with
  | EmptyString => [EmptyString]
  | String a s' =>
      if decide (a = sep) then EmptyString :: split sep s'
      else
        match split sep s' with
        | x :: xs => String a x :: xs
        | [] => [String a EmptyString]
        end
  end.

(** [s[n:]] *)
Fixpoint slice_from (n : nat) (s : string) : string :=
  match n, s with
  | 0, _ => s
  | S n', String _ s' => slice_from n' s'
  | S _, EmptyString => EmptyString
  end.

(** [s[-n:]] for [n > 0] *)
Definition slice_last (n : nat) (s : string) : string :=
  slice_from (String.length s - n) s.

Definition add_gpg_key (key : string) (self : SystemStateReader) : SystemStateReader :=
  {| gpg_keys := {[ key ]} ∪ gpg_keys self;
     mirrors := mirrors self; snapshots := snapshots self |}.

Definition newline : ascii := Ascii.ascii_of_nat 10.
Definition colon : ascii := ":"%char.

(** The body of [for line in data.split("\n")]. *)
Fixpoint read_gpg_lines (lines : list string) (self : SystemStateReader)
  : outcome unit * SystemStateReader :=
  match lines with
  | [] => (Return (), self)
  | line :: rest =>
      let field := split colon line in
      match field !! 0 with
      | None => (Raise (IndexError "list index out of range"), self)
      | Some field0 =>
          if decide (field0 = "pub") then
            match field !! 4 with
            | None => (Raise (IndexError "list index out of range"), self)
            | Some key =>
                let key_short := slice_from 8 key in
                read_gpg_lines rest (add_gpg_key key_short (add_gpg_key key self))
            end
          else read_gpg_lines rest self
      end
  end.

(** [read_gpg]; [gpg_output] is what [call_output] gives for the listing of
    the keyring. *)
Definition read_gpg (gpg_output : outcome string) (self : SystemStateReader)
  : outcome unit * SystemStateReader :=
  let self := {| gpg_keys := ∅; mirrors := mirrors self; snapshots := snapshots self |} in
  match gpg_output with
  | Raise e => (Raise e, self)
  | Return data => read_gpg_lines (split newline data) self
  end.

(** ** Well-formed stores and example inputs *)

(** Every provided tag has one of the kinds [provide] accepts: what holds of
    commands that are built with [Command(...)] and [provide]. *)
Definition provides_well_formed (h : heap) : Prop :=
  ∀ c o t, h c = OCommand o → t ∈ _provides o → t.1 ∈ provided_kinds.

Definition no_objects : heap := λ _, ONone.

Definition always_false : tag → outcome bool := λ _, Return false.

(** The default of the parameter, [lambda: False], takes no argument: called
    with a requirement it raises. *)
Definition default_has_dependency_cb : tag → outcome bool :=
  λ _, Raise (TypeError "<lambda>() takes no arguments (1 given)").

(** Command [A] provides [(snapshot, s1)]; command [B] requires it and
    provides [(snapshot, s2)]. *)
Module Scenario.

Definition A : Command :=
  add_provide ("snapshot", "s1") (Command__init__ ["aptly"; "A"]).
Definition B : Command :=
  add_provide ("snapshot", "s2")
    (add_require ("snapshot", "s1") (Command__init__ ["aptly"; "B"])).

Definition store : heap := <[ 1 := OCommand A ]> (<[ 2 := OCommand B ]> no_objects).

End Scenario.

(** Two commands that wait for each other, and a command that waits for a
    mirror nobody provides. *)
Module Cycle.

Definition X : Command :=
  add_provide ("snapshot", "x")
    (add_require ("snapshot", "y") (Command__init__ ["aptly"; "X"])).
Definition Y : Command :=
  add_provide ("snapshot", "y")
    (add_require ("snapshot", "x") (Command__init__ ["aptly"; "Y"])).
Definition C : Command :=
  add_require ("mirror", "m1") (Command__init__ ["aptly"; "C"]).

Definition store : heap :=
  <[ 1 := OCommand X ]> (<[ 2 := OCommand Y ]> (<[ 3 := OCommand C ]> no_objects)).

End Cycle.

(** A command with a requirement of kind [any]. *)
Module AnyKind.

Definition W : Command :=
  add_require ("any", "x") (Command__init__ ["aptly"; "W"]).

Definition store : heap := <[ 1 := OCommand W ]> no_objects.

End AnyKind.

(** A command to execute, and an outside world in which the first launch
    of anything returns status [1] and every later launch returns [0]. *)
Module Retry.

Definition argv : list string := ["aptly"; "mirror"; "update"; "m"].

Definition store : heap := <[ 1 := OCommand (Command__init__ argv) ]> no_objects.

Definition start : world := {| objects := store; calls := [] |}.

Definition launch : list (list string) → list string → outcome Z :=
  λ earlier _,
    match earlier with
    | [] => Return 1%Z
    | _ :: _ => Return 0%Z
    end.

End Retry.

(** The listing of a keyring: one [pub] line, with a key id of 16
    characters. *)
Module Keyring.

Definition key16 : string := "0123456789ABCDEF".

Definition line16 : string := "pub:u:4096:1:" ++ key16 ++ ":2014-01-01:::u:::scESC:".

Definition listing (pub_line : string) : string :=
  "tru::1:1400000000:0:3:1:5" ++ String newline (pub_line ++ String newline "").

End Keyring.

(** ** Orders that respect the dependencies *)

Section valid_orders.

Context (h : heap) (has_dependency_cb : tag → outcome bool).

(** A list of distinct commands in which every command finds each of its
    requirements answered [True] by the callback or provided by a command
    that stands before it. *)
Definition valid_order (l : list ref) : Prop :=
  NoDup l ∧ (∀ c, c ∈ l → is_Command h c = true) ∧
  ∀ i D d t,
    l !! i = Some D → h D = OCommand d → t ∈ _requires d →
    has_dependency_cb t ≠ Return true → provided_before h l i t.

(** Everything the scheduled commands provide has been collected. *)
Definition have_complete (st : loop_state) : Prop :=
  ∀ P p, P ∈ scheduled_cmdids st → h P = OCommand p →
         _provides p ⊆ have_requirements st.

End valid_orders.

(** ** Reading the state of the system: [call_output], [read_aptly_list],
    [read_mirror], [read_snapshot], [read] *)

(** Another order on the sets: the reverse of the one of [elements]. *)
Definition reverse_order : iteration_order :=
  {| enum := λ _ s, reverse (elements s);
     enum_perm := λ _ s, reverse_Permutation (elements s) |}.

(** [call_output(args)], for a process that ends with [returncode] after
    writing [output]. *)
Definition call_output (args : list string) (returncode : Z) (output : string)
  : outcome string :=
  if decide (returncode ≠ 0%Z) then Raise (CalledProcessError returncode args)
  else Return output.

(** The characters [str.strip()] removes: space, tab, newline, vertical tab,
    form feed, carriage return. *)
Definition is_space (a : ascii) : bool :=
  bool_decide (nat_of_ascii a ∈ [9; 10; 11; 12; 13; 32]).

Fixpoint lstrip (s : string) : string :=
  match s with
  | EmptyString => EmptyString
  | String a s' => if is_space a then lstrip s' else s
  end.

Fixpoint rstrip (s : string) : string :=
  match s with
  | EmptyString => EmptyString
  | String a s' =>
      match rstrip s' with
      | EmptyString => if is_space a then EmptyString else String a EmptyString
      | String b r => String a (String b r)
      end
  end.

(** [s.strip()] *)
Definition strip (s : string) : string := lstrip (rstrip s).

(** The body of [for line in data.split("\n")] in [read_aptly_list]. *)
Fixpoint read_aptly_lines (lines : list string) (list_ : gset string) : gset string :=
  match lines with
  | [] => list_
  | line :: rest => read_aptly_lines rest ({[ strip line ]} ∪ list_)
  end.

(** [read_aptly_list(type_, list_)]; [aptly_output] is what [call_output]
    gives for [aptly <type_> list -raw]. *)
Definition read_aptly_list (aptly_output : outcome string) (list_ : gset string)
  : outcome unit * gset string :=
  match aptly_output with
  | Raise e => (Raise e, list_)
  | Return data => (Return (), read_aptly_lines (split newline data) list_)
  end.

Definition read_mirror (aptly_output : outcome string) (self : SystemStateReader)
  : outcome unit * SystemStateReader :=
  let '(r, list_) := read_aptly_list aptly_output ∅ in
  (r, {| gpg_keys := gpg_keys self; mirrors := list_; snapshots := snapshots self |}).

Definition read_snapshot (aptly_output : outcome string) (self : SystemStateReader)
  : outcome unit * SystemStateReader :=
  let '(r, list_) := read_aptly_list aptly_output ∅ in
  (r, {| gpg_keys := gpg_keys self; mirrors := mirrors self; snapshots := list_ |}).

Definition gpg_list_keys : list string :=
  ["gpg"; "--no-default-keyring"; "--keyring"; "trustedkeys.gpg";
   "--list-keys"; "--with-colons"].

Definition aptly_list (type_ : string) : list string :=
  ["aptly"; type_; "list"; "-raw"].

(** [read]; [process] gives, for an argument vector, the return code and the
    output of the process it starts. *)
Definition read (process : list string → Z * string) (self : SystemStateReader)
  : outcome unit * SystemStateReader :=
  let run args := call_output args (process args).1 (process args).2 in
  match read_gpg (run gpg_list_keys) self with
  | (Raise e, self) => (Raise e, self)
  | (Return _, self) =>
      match read_mirror (run (aptly_list "mirror")) self with
      | (Raise e, self) => (Raise e, self)
      | (Return _, self) => read_snapshot (run (aptly_list "snapshot")) self
      end
  end.

(** What a [pub] line registers. *)
Definition registered_by (line name : string) : Prop :=
  split colon line !! 0 = Some "pub"
  ∧ ∃ key, split colon line !! 4 = Some key ∧ (name = key ∨ name = slice_from 8 key).

(** The format of the listing that [gpg --list-keys --with-colons] prints,
    as far as [read_gpg] looks at it: in a line whose first field is [pub],
    the fifth field is there and holds the key id, which has 16
    characters. *)
Definition pub_line_ok (line : string) : bool :=
  match split colon line !! 0 with
  | Some field0 =>
      if decide (field0 = "pub") then
        match split colon line !! 4 with
        | Some key => bool_decide (String.length key = 16)
        | None => false
        end
      else true
  | None => true
  end.

Definition colon_listing (data : string) : Prop :=
  Forall (λ line, pub_line_ok line = true) (split newline data).

(** ** The batch functions: [cmd_snapshot_create], [snapshot],
    [add_gpg_keys], [cmd_mirror_create], [cmd_mirror_update], [mirror]

    These functions create commands, read the global [state] and start
    processes.  They run in a session: the world of [execute] and the [id]
    the next new object gets.  The object [None] has the [id] [None_id]. *)

(** The exceptions of the batch functions: those of the core, [KeyError] for
    a key that is a string, [UnboundLocalError], and a bare [Exception]. *)
Inductive failure :=
| Exn (e : exn)
| KeyError_str (key : string)
| UnboundLocalError (name : string)
| Exception (msg : string).

(** [OutOfPasses]: the bound on the passes of [order_commands] was hit. *)
Inductive result (A : Type) :=
| Done (a : A)
| Failed (f : failure)
| OutOfPasses.

Arguments Done {A} a.
Arguments Failed {A} f.
Arguments OutOfPasses {A}.

Record session := {
  the_world : world;
  next_id : ref
}.

Definition None_id : ref := 0.

Definition M (A : Type) : Type := session → result A * session.

#[global] Instance M_ret : MRet M := λ A a s, (Done a, s).

#[global] Instance M_bind : MBind M := λ A B k m s,
  match m s with
  | (Done a, s') => k a s'
  | (Failed f, s') => (Failed f, s')
  | (OutOfPasses, s') => (OutOfPasses, s')
  end.

Definition raise {A} (f : failure) : M A := λ s, (Failed f, s).

Definition lift_outcome {A} (o : outcome A) : result A :=
  match o with
  | Return a => Done a
  | Raise e => Failed (Exn e)
  end.

(** A method that works on the objects. *)
Definition on_heap {A} (f : heap → outcome A * heap) : M A := λ s,
  let '(o, h') := f (objects (the_world s)) in
  (lift_outcome o,
   {| the_world := {| objects := h'; calls := calls (the_world s) |};
      next_id := next_id s |}).

(** A function that works on the objects and starts processes. *)
Definition on_world {A} (f : world → outcome A * world) : M A := λ s,
  let '(o, w') := f (the_world s) in
  (lift_outcome o, {| the_world := w'; next_id := next_id s |}).

(** [Command(cmd)]: a new object. *)
Definition new_Command (cmd : list string) : M ref := λ s,
  (Done (next_id s),
   {| the_world :=
        {| objects := <[ next_id s := OCommand (Command__init__ cmd) ]>
                        (objects (the_world s));
           calls := calls (the_world s) |};
      next_id := S (next_id s) |}).

(** The entries of the configuration the functions look at.  The values
    have the types the functions use them at: names are strings, lists are
    lists of strings, [sources] and [udeb] are booleans; a key that is
    absent is [None]. *)
Record filter_config := {
  filter_source : option string;
  filter_query : option string
}.

Record snapshot_config := {
  snapshot_mirror : option string;
  snapshot_repo : option string;
  snapshot_filter : option filter_config
}.

Record mirror_config := {
  mirror_gpg_keys : option (list string);
  mirror_gpg_urls : option (list string);
  mirror_sources : option bool;
  mirror_udeb : option bool;
  mirror_architectures : option (list string);
  mirror_archive : option string;
  mirror_distribution : option string;
  mirror_components : option (list string)
}.

(** [cfg]: under [snapshot] and [mirror], the items of the dictionary in
    the order in which [items()] gives them. *)
Record config := {
  cfg_snapshot : option (list (string * snapshot_config));
  cfg_mirror : option (list (string * mirror_config))
}.

(** [d[key]] for a key that may be absent. *)
Definition getitem_str {A} (key : string) (value : option A) : M A :=
  match value with
  | Some a => mret a
  | None => raise (KeyError_str key)
  end.

(** [items[name]], for the items of a dictionary. *)
Fixpoint lookup_item {A} (name : string) (items : list (string * A)) : option A :=
  match items with
  | [] => None
  | (k, v) :: rest => if decide (k = name) then Some v else lookup_item name rest
  end.

(** The order in which [keys_urls.keys()] gives the keys. *)
Record dict_order := {
  keys_of : gmap string (option string) → list string;
  keys_of_perm : ∀ m, keys_of m ≡ₚ elements (dom m)
}.

Definition elements_dict_order : dict_order :=
  {| keys_of := λ m, elements (dom m);
     keys_of_perm := λ m, reflexivity (elements (dom m)) |}.

Section batch.

Context (order : iteration_order) (keys_order : dict_order).
Context (launch : list (list string) → list string → outcome Z).
Context (state : SystemStateReader).

Local Open Scope list_scope.

Definition cmd_snapshot_create (snapshot_name : string)
    (snapshot_config : snapshot_config) : M (option ref) :=
  if decide (snapshot_name ∈ snapshots state) then mret None
  else
    let default_aptly_cmd := ["aptly"; "snapshot"; "create"; snapshot_name; "from"] in
    match snapshot_mirror snapshot_config with
    | Some mirror =>
        cmd ← new_Command (default_aptly_cmd ++ ["mirror"; mirror]);
        _ ← on_heap (provide cmd "snapshot" snapshot_name);
        mret (Some cmd)
    | None =>
        match snapshot_repo snapshot_config with
        | Some repo =>
            cmd ← new_Command (default_aptly_cmd ++ ["repo"; repo]);
            _ ← on_heap (provide cmd "snapshot" snapshot_name);
            mret (Some cmd)
        | None =>
            match snapshot_filter snapshot_config with
            | Some filter =>
                source ← getitem_str "source" (filter_source filter);
                query ← getitem_str "query" (filter_query filter);
                cmd ← new_Command
                        ["aptly"; "snapshot"; "filter"; source; snapshot_name; query];
                _ ← on_heap (provide cmd "snapshot" snapshot_name);
                _ ← on_heap (require cmd "snapshot" source);
                mret (Some cmd)
            | None =>
                raise (Exn (ValueError "Don't know how to handle snapshot config" []))
            end
        end
    end.

(** [snapshot_cmds[task]] *)
Definition snapshot_cmds (task : string)
  : option (string → snapshot_config → M (option ref)) :=
  if decide (task = "create") then Some cmd_snapshot_create else None.

(** [[cmd_snapshot(name, config) for name, config in items]] *)
Fixpoint create_all (cmd_snapshot : string → snapshot_config → M (option ref))
    (items : list (string * snapshot_config)) : M (list (option ref)) :=
  match items with
  | [] => mret []
  | (snapshot_name, snapshot_config) :: rest =>
      cmd ← cmd_snapshot snapshot_name snapshot_config;
      cmds ← create_all cmd_snapshot rest;
      mret (cmd :: cmds)
  end.

(** [Command.order_commands(commands, state.has_dependency)] *)
Definition order_in_session (commands : list (option ref)) : M (list ref) := λ s,
  match order_commands order (objects (the_world s)) (oracle state)
          (from_option id None_id <$> commands) with
  | Some o => (lift_outcome o, s)
  | None => (OutOfPasses, s)
  end.

(** [for cmd in ...: cmd.execute()] *)
Fixpoint execute_all (cmds : list ref) : M unit :=
  match cmds with
  | [] => mret ()
  | cmd :: rest => _ ← on_world (execute launch cmd); execute_all rest
  end.

Definition snapshot (cfg : config) (task snapshot_name : string) : M unit :=
  items ← getitem_str "snapshot" (cfg_snapshot cfg);
  cmd_snapshot ← getitem_str task (snapshot_cmds task);
  if decide (snapshot_name = "all") then
    commands ← create_all cmd_snapshot items;
    ordered ← order_in_session commands;
    execute_all ordered
  else
    match lookup_item snapshot_name items with
    | Some snapshot_config =>
        cmd ← cmd_snapshot snapshot_name snapshot_config;
        match cmd with
        | Some cmd => _ ← on_world (execute launch cmd); mret ()
        | None => mret ()
        end
    | None =>
        raise (Exn (ValueError
          ("Requested snapshot is not defined in config file: " +:+ snapshot_name) []))
    end.

(** The loops of [add_gpg_keys] that fill [keys_urls]. *)
Fixpoint pair_keys_urls (x : nat) (keys urls : list string)
    (keys_urls : gmap string (option string)) : gmap string (option string) :=
  match keys with
  | [] => keys_urls
  | key :: rest =>
      let url := if decide (x < length urls) then urls !! x else None in
      pair_keys_urls (S x) rest urls (<[ key := url ]> keys_urls)
  end.

Fixpoint keys_without_urls (keys : list string)
    (keys_urls : gmap string (option string)) : gmap string (option string) :=
  match keys with
  | [] => keys_urls
  | key :: rest => keys_without_urls rest (<[ key := None ]> keys_urls)
  end.

Definition recv_keys (key : string) : list string :=
  ["gpg"; "--no-default-keyring"; "--keyring"; "trustedkeys.gpg";
   "--keyserver"; "pool.sks-keyservers.net"; "--recv-keys"; key].

Definition wget_key (url : string) : list string :=
  ["bash"; "-c";
   "wget -q -O - " +:+ url
   +:+ " | gpg --no-default-keyring --keyring trustedkeys.gpg --import"].

(** [if url:] for a value that is [None] or a string. *)
Definition truthy (url : option string) : bool :=
  match url with
  | None => false
  | Some u => bool_decide (u ≠ "")
  end.

(** The body of [for key in keys_urls.keys()]. *)
Definition fetch_key (keys_urls : gmap string (option string)) (key : string)
  : M unit :=
  if decide (key ∈ gpg_keys state) then mret ()
  else λ s,
    match check_call launch (recv_keys key) (the_world s) with
    | (Return _, w) => (Done (), {| the_world := w; next_id := next_id s |})
    | (Raise (CalledProcessError returncode args), w) =>
        let s' := {| the_world := w; next_id := next_id s |} in
        match keys_urls !! key with
        | None => (Failed (KeyError_str key), s')
        | Some url =>
            if truthy url then
              (_ ← on_world (check_call launch (wget_key (default "" url)));
               mret ()) s'
            else (Failed (Exn (CalledProcessError returncode args)), s')
        end
    | (Raise e, w) => (Failed (Exn e), {| the_world := w; next_id := next_id s |})
    end.

Fixpoint fetch_keys (keys_urls : gmap string (option string)) (keys : list string)
  : M unit :=
  match keys with
  | [] => mret ()
  | key :: rest => _ ← fetch_key keys_urls key; fetch_keys keys_urls rest
  end.

Definition add_gpg_keys (mirror_config : mirror_config) : M unit :=
  match mirror_gpg_keys mirror_config with
  | Some keys =>
      let keys_urls :=
        match mirror_gpg_urls mirror_config with
        | Some urls => pair_keys_urls 0 keys urls ∅
        | None => keys_without_urls keys ∅
        end in
      fetch_keys keys_urls (keys_of keys_order keys_urls)
  | None => raise (UnboundLocalError "keys_urls")
  end.

(** The argument vector [cmd_mirror_create] builds. *)
Definition mirror_create_flags (mirror_config : mirror_config) : list string :=
  (if default false (mirror_sources mirror_config) then ["-with-sources"] else [])
  ++ (if default false (mirror_udeb mirror_config) then ["-with-udebs"] else [])
  ++ match mirror_architectures mirror_config with
     | Some architectures =>
         ["-architectures=" +:+ String.concat "," architectures]
     | None => []
     end.

Definition cmd_mirror_create (mirror_name : string) (mirror_config : mirror_config)
  : M unit :=
  if decide (mirror_name ∈ mirrors state) then mret ()
  else
    _ ← add_gpg_keys mirror_config;
    let aptly_cmd := ["aptly"; "mirror"; "create"] ++ mirror_create_flags mirror_config in
    let aptly_cmd := aptly_cmd ++ [mirror_name] in
    archive ← getitem_str "archive" (mirror_archive mirror_config);
    let aptly_cmd := aptly_cmd ++ [archive] in
    distribution ← getitem_str "distribution" (mirror_distribution mirror_config);
    let aptly_cmd := aptly_cmd ++ [distribution] in
    components ← getitem_str "components" (mirror_components mirror_config);
    let aptly_cmd := aptly_cmd ++ components in
    _ ← on_world (check_call launch aptly_cmd);
    mret ().

Definition cmd_mirror_update (mirror_name : string) (mirror_config : mirror_config)
  : M unit :=
  if decide (mirror_name ∉ mirrors state) then raise (Exception "Mirror not created yet")
  else
    _ ← add_gpg_keys mirror_config;
    let aptly_cmd := ["aptly"; "mirror"; "update"; mirror_name] in
    _ ← on_world (check_call launch aptly_cmd);
    mret ().

(** [mirror_cmds[task]] *)
Definition mirror_cmds (task : string) : option (string → mirror_config → M unit) :=
  if decide (task = "create") then Some cmd_mirror_create
  else if decide (task = "update") then Some cmd_mirror_update
  else None.

(** [for mirror_name, mirror_config in items: cmd_mirror(...)] *)
Fixpoint for_each_mirror (cmd_mirror : string → mirror_config → M unit)
    (items : list (string * mirror_config)) : M unit :=
  match items with
  | [] => mret ()
  | (mirror_name, mirror_config) :: rest =>
      _ ← cmd_mirror mirror_name mirror_config;
      for_each_mirror cmd_mirror rest
  end.

Definition mirror (cfg : config) (task mirror_name : string) : M unit :=
  items ← getitem_str "mirror" (cfg_mirror cfg);
  cmd_mirror ← getitem_str task (mirror_cmds task);
  if decide (mirror_name = "all") then for_each_mirror cmd_mirror items
  else
    match lookup_item mirror_name items with
    | Some mirror_config => cmd_mirror mirror_name mirror_config
    | None =>
        raise (Exn (ValueError
          ("Requested mirror is not defined in config file: " +:+ mirror_name) []))
    end.

End batch.

(** The session is in order: the object [None] is where it is looked for,
    and no new object takes its place. *)
Definition session_ok (s : session) : Prop :=
  objects (the_world s) None_id = ONone ∧ None_id < next_id s.

(** The command [cmd_snapshot_create] makes for a snapshot: it provides the
    snapshot, has no result yet, and is made from the first of the keys
    [mirror], [repo], [filter] that the configuration has. *)
Definition snapshot_command (snapshot_name : string)
    (snapshot_config : snapshot_config) (c : Command) : Prop :=
  _provides c = {[ ("snapshot", snapshot_name) ]} ∧ _finished c = None ∧
  ((∃ mirror, snapshot_mirror snapshot_config = Some mirror ∧
      cmd c = ["aptly"; "snapshot"; "create"; snapshot_name; "from"; "mirror"; mirror] ∧
      _requires c = ∅)
   ∨ (snapshot_mirror snapshot_config = None ∧
      ∃ repo, snapshot_repo snapshot_config = Some repo ∧
        cmd c = ["aptly"; "snapshot"; "create"; snapshot_name; "from"; "repo"; repo] ∧
        _requires c = ∅)
   ∨ (snapshot_mirror snapshot_config = None ∧ snapshot_repo snapshot_config = None ∧
      ∃ filter source query,
        snapshot_filter snapshot_config = Some filter ∧
        filter_source filter = Some source ∧ filter_query filter = Some query ∧
        cmd c = ["aptly"; "snapshot"; "filter"; source; snapshot_name; query] ∧
        _requires c = {[ ("snapshot", source) ]})).

(** What a call of [cmd_snapshot_create] that returns has done. *)
Inductive snapshot_created (state : SystemStateReader) (snapshot_name : string)
    (snapshot_config : snapshot_config) (s : session)
  : option ref → session → Prop :=
| snapshot_known :
    snapshot_name ∈ snapshots state →
    snapshot_created state snapshot_name snapshot_config s None s
| snapshot_new c s' :
    snapshot_name ∉ snapshots state →
    snapshot_command snapshot_name snapshot_config c →
    objects (the_world s') (next_id s) = OCommand c →
    (∀ r, r ≠ next_id s → objects (the_world s') r = objects (the_world s) r) →
    calls (the_world s') = calls (the_world s) →
    next_id s' = S (next_id s) →
    snapshot_created state snapshot_name snapshot_config s (Some (next_id s)) s'.

(** What [create_all] has made for an item of the configuration: nothing
    for a snapshot that is known, a new command otherwise. *)
Definition made_for (state : SystemStateReader) (s s' : session)
    (item : string * snapshot_config) (cmd : option ref) : Prop :=
  match cmd with
  | None => item.1 ∈ snapshots state
  | Some r =>
      next_id s ≤ r < next_id s' ∧ (item.1 ∉ snapshots state) ∧
      ∃ c, objects (the_world s') r = OCommand c ∧ snapshot_command item.1 item.2 c
  end.

(** [cmd] of the command at [r], for a reference to a command. *)
Definition argv_of (h : heap) (r : ref) : list string :=
  match h r with
  | OCommand c => cmd c
  | _ => []
  end.

(** A process that [add_gpg_keys] may start for the keys [keys] of a
    configuration with the urls [urls]: the request of a key that is not
    known, or the download of one of the urls. *)
Definition fetches (state : SystemStateReader) (keys : list string)
    (urls : option (list string)) (argv : list string) : Prop :=
  ∃ key, key ∈ keys ∧ (key ∉ gpg_keys state) ∧
    (argv = recv_keys key
     ∨ ∃ url all, urls = Some all ∧ url ∈ all ∧ url ≠ "" ∧ argv = wget_key url).

(** The processes started once the first [i] commands of [cmds], none of
    which had a result, have been executed from the session [s]. *)
Definition calls_after (s : session) (cmds : list ref) (i : nat)
  : list (list string) :=
  (calls (the_world s) ++ (argv_of (objects (the_world s)) <$> take i cmds))%list.

(** The first [k] commands of [cmds] have been executed from [s] and went
    well: the process of each, started after those of the commands before
    it, returned [0], and this result is stored in the command.  No other
    object is touched. *)
Definition succeeded (launch : list (list string) → list string → outcome Z)
    (s : session) (cmds : list ref) (k : nat) (s' : session) : Prop :=
  (∀ i r, (i < k)%nat → cmds !! i = Some r →
     launch (calls_after s cmds i) (argv_of (objects (the_world s)) r) = Return 0%Z
     ∧ ∃ c, objects (the_world s) r = OCommand c
            ∧ objects (the_world s') r = OCommand (set_finished 0 c))
  ∧ (∀ r, r ∉ take k cmds → objects (the_world s') r = objects (the_world s) r)
  ∧ next_id s' = next_id s.

(** The exception [e] with which [check_call(args)] is left when the launch
    gave [o]: the one of the launch itself, or [CalledProcessError] for a
    return code other than [0]. *)
Definition process_failed (args : list string) (o : outcome Z) (e : exn) : Prop :=
  o = Raise e
  ∨ ∃ returncode, returncode ≠ 0%Z ∧ o = Return returncode
                  ∧ e = CalledProcessError returncode args.

(** What the loop [for cmd in cmds: cmd.execute()] has done when it ends
    with [res] in the session [s']: every process returned [0] and all of
    them were started, in the order of the list; or the process of the
    command at [j] is the first that failed, the loop is left with its
    exception, and the commands after [j] were not started. *)
Inductive executed (launch : list (list string) → list string → outcome Z)
    (cmds : list ref) (s : session) : result unit → session → Prop :=
| executed_all s' :
    succeeded launch s cmds (length cmds) s' →
    calls (the_world s') = calls_after s cmds (length cmds) →
    executed launch cmds s (Done ()) s'
| executed_until j r e s' :
    cmds !! j = Some r →
    succeeded launch s cmds j s' →
    process_failed (argv_of (objects (the_world s)) r)
      (launch (calls_after s cmds j) (argv_of (objects (the_world s)) r)) e →
    calls (the_world s') = calls_after s cmds (S j) →
    executed launch cmds s (Failed (Exn e)) s'.

(** A configuration with three snapshots: [filtered] is made from [base]
    by a filter, [old] is known to the system, [base] comes from a mirror.
    Every process ends with status [0]. *)
Module Batch.

Definition state : SystemStateReader :=
  {| gpg_keys := {[ "0123456789ABCDEF" ]}; mirrors := {[ "m1" ]};
     snapshots := {[ "old" ]} |}.

Definition from_mirror (mirror : string) : snapshot_config :=
  {| snapshot_mirror := Some mirror; snapshot_repo := None; snapshot_filter := None |}.

Definition from_filter (source query : string) : snapshot_config :=
  {| snapshot_mirror := None; snapshot_repo := None;
     snapshot_filter :=
       Some {| filter_source := Some source; filter_query := Some query |} |}.

Definition items : list (string * snapshot_config) :=
  [("filtered", from_filter "base" "nginx"); ("old", from_mirror "m1");
   ("base", from_mirror "m1")].

Definition no_gpg_keys : mirror_config :=
  {| mirror_gpg_keys := None; mirror_gpg_urls := None; mirror_sources := None;
     mirror_udeb := None; mirror_architectures := None;
     mirror_archive := Some "http://deb.example.org/debian";
     mirror_distribution := Some "stable"; mirror_components := Some ["main"] |}.

Definition with_keys (keys : list string) (urls : option (list string))
  : mirror_config :=
  {| mirror_gpg_keys := Some keys; mirror_gpg_urls := urls;
     mirror_sources := Some true; mirror_udeb := None;
     mirror_architectures := Some ["amd64"; "i386"];
     mirror_archive := Some "http://deb.example.org/debian";
     mirror_distribution := Some "stable";
     mirror_components := Some ["main"; "contrib"] |}.

Definition cfg : config :=
  {| cfg_snapshot := Some items; cfg_mirror := Some [("m2", no_gpg_keys)] |}.

Definition start : session :=
  {| the_world := {| objects := no_objects; calls := [] |}; next_id := 1 |}.

Definition launch : list (list string) → list string → outcome Z :=
  λ _ _, Return 0%Z.

End Batch.

(** Three commands without result, and a world in which the second process
    that is started ends with status [2] and every other with [0]. *)
Module Halfway.

Definition store : heap :=
  <[ 1 := OCommand (Command__init__ ["aptly"; "one"]) ]>
    (<[ 2 := OCommand (Command__init__ ["aptly"; "two"]) ]>
       (<[ 3 := OCommand (Command__init__ ["aptly"; "three"]) ]> no_objects)).

Definition start : session :=
  {| the_world := {| objects := store; calls := [] |}; next_id := 4 |}.

Definition launch : list (list string) → list string → outcome Z :=
  λ earlier _,
    match earlier with
    | [_] => Return 2%Z
    | _ => Return 0%Z
    end.

End Halfway.

(** * Properties *)

(** ** The error monad *)

Lemma bind_Return {A B} (m : outcome A) (f : A → outcome B) (b : B) :
  m ≫= f = Return b → ∃ a, m = Return a ∧ f a = Return b.
Proof. destruct m as [a|e]; [eauto | discriminate]. Qed.

Lemma for_each_Return_id {A} (f : A → outcome A) (l : list A) :
  Forall (λ a, f a = Return a) l → for_each f l = Return l.
Proof.
  induction 1 as [|a l Ha _ IH]; [done|].
  cbn [for_each]. rewrite Ha. cbn. rewrite IH. done.
Qed.

(** ** The scheduler *)

Section order_commands_facts.

Context (order : iteration_order) (h : heap).
Context (has_dependency_cb : tag → outcome bool).

Local Abbreviation check := (can_schedule has_dependency_cb).
Local Abbreviation visit1 := (visit order h has_dependency_cb).
Local Abbreviation scan1 := (scan order h has_dependency_cb).
Local Abbreviation loop := (while_loop order h has_dependency_cb).
Local Abbreviation met := (met has_dependency_cb).
Local Abbreviation visit_spec := (visit_spec h has_dependency_cb).
Local Abbreviation provided_before := (provided_before h).
Local Abbreviation sched_inv := (sched_inv h has_dependency_cb).
Local Abbreviation raised_by_callback := (raised_by_callback h has_dependency_cb).
Local Abbreviation always_answers := (always_answers has_dependency_cb).

Lemma can_schedule_true have reqs :
  check have reqs = Return true → Forall (met have) reqs.
Proof.
  induction reqs as [|req reqs IH]; cbn [can_schedule]; [constructor|].
  case_decide as Hin.
  - intros Hrest. constructor; [by left | auto].
  - intros Hb. apply bind_Return in Hb as ([|] & Hcb & Hrest).
    + constructor; [by right | auto].
    + discriminate.
Qed.

Lemma can_schedule_all_have have reqs :
  Forall (λ req, req ∈ have) reqs → check have reqs = Return true.
Proof.
  induction 1 as [|req reqs Hin _ IH]; cbn [can_schedule]; [done|].
  by rewrite decide_True.
Qed.

Lemma visit_Return st c st' : visit1 st c = Return st' → visit_spec st c st'.
Proof.
  unfold visit, getattr. case_decide as Hin.
  - intros [= <-]. constructor.
  - destruct (h c) as [|o|cls] eqn:Hc; cbn; try discriminate.
    destruct (check _ _) as [[|]|e] eqn:Hok; cbn; try discriminate.
    + intros [= <-]. apply visit_schedule; [done..|].
      apply can_schedule_true in Hok.
      by rewrite <-(enum_perm order c).
    + intros [= <-]. constructor.
Qed.

Lemma provided_before_le l i i' t :
  (i ≤ i')%nat → provided_before l i t → provided_before l i' t.
Proof. intros Hle (j & P & p & Hj & HP). exists j, P, p. split; [lia | done]. Qed.

Lemma provided_before_app l l' i t :
  provided_before l i t → provided_before (l ++ l') i t.
Proof.
  intros (j & P & p & Hj & Hl & HP). exists j, P, p.
  split; [done|]. split; [|done]. by apply lookup_app_l_Some.
Qed.

Lemma sched_inv_initial cs : sched_inv cs initial_state.
Proof.
  split; cbn.
  - constructor.
  - intros c Hc. by apply elem_of_nil in Hc.
  - intros t Ht. by apply not_elem_of_empty in Ht.
  - intros i D d t Hi. by rewrite lookup_nil in Hi.
Qed.

Lemma sched_inv_clear cs st : sched_inv cs st → sched_inv cs (clear_changed st).
Proof. intros [? ? ? ?]. by split. Qed.

Lemma sched_inv_length cs st :
  sched_inv cs st → (length (scheduled_cmdids st) ≤ length cs)%nat.
Proof.
  intros [Hnd Hincl _ _]. apply submseteq_length, NoDup_submseteq; done.
Qed.

Lemma visit_spec_inv cs st c st' :
  c ∈ cs → visit_spec st c st' → sched_inv cs st → sched_inv cs st'.
Proof.
  intros Hc [|o Hnew Ho Hmet] [Hnd Hincl Hhave Hprec]; [by split|].
  split; cbn.
  - apply list.NoDup_app. split; [done|]. split; [|apply NoDup_singleton].
    intros x Hx ->%list_elem_of_singleton. done.
  - intros x [Hx| ->%list_elem_of_singleton]%elem_of_app; auto.
  - intros t [Ht|Ht]%elem_of_union.
    + apply provided_before_app, provided_before_le with (length (scheduled_cmdids st));
        [rewrite length_app; lia | auto].
    + exists (length (scheduled_cmdids st)), c, o.
      rewrite length_app. cbn. split; [lia|]. split; [|done].
      by rewrite lookup_app_r, Nat.sub_diag.
  - intros i D d t Hi HD Ht Hcb.
    destruct (decide (i < length (scheduled_cmdids st))) as [Hlt|Hge].
    + rewrite lookup_app_l in Hi by done.
      apply provided_before_app. eauto.
    + rewrite lookup_app_r in Hi by lia.
      destruct (i - length (scheduled_cmdids st)) as [|k] eqn:Hk; [|done].
      injection Hi as <-. rewrite Ho in HD. injection HD as <-.
      rewrite list.Forall_forall in Hmet.
      destruct (Hmet t) as [Hin|Hyes]; [by apply elem_of_elements | | done].
      apply provided_before_app, provided_before_le with (length (scheduled_cmdids st));
        [lia | auto].
Qed.

Lemma visit_spec_progress st c st' : visit_spec st c st' → progress st st'.
Proof.
  intros [|o _ _ _]; [by left | right]. cbn. rewrite length_app. cbn. split; [done | lia].
Qed.

Lemma progress_trans st1 st2 st3 :
  progress st1 st2 → progress st2 st3 → progress st1 st3.
Proof.
  intros [->|[H1 Hl1]] [->|[H2 Hl2]]; unfold progress; auto.
  right. split; [done | lia].
Qed.

Lemma scan_Return cs l st st' :
  scan1 l st = Return st' → (∀ c, c ∈ l → c ∈ cs) → sched_inv cs st →
  sched_inv cs st' ∧ progress st st'.
Proof.
  revert st. induction l as [|c l IH]; intros st; cbn [scan].
  - intros [= <-] _ Hinv. split; [done | by left].
  - intros (st1 & Hv%visit_Return & Hrest)%bind_Return Hl Hinv.
    destruct (IH st1 Hrest) as [Hinv' Hp].
    + intros x Hx. apply Hl. by right.
    + eapply visit_spec_inv; [|done..]. apply Hl. by left.
    + split; [done|]. eapply progress_trans; [|done]. by eapply visit_spec_progress.
Qed.

(** The [while] loop keeps the invariant. *)
Lemma loop_Return cs fuel st st' :
  loop fuel cs st = Some (Return st') → sched_inv cs st →
  sched_inv cs st' ∧ something_changed st' = false.
Proof.
  revert st. induction fuel as [|fuel IH]; intros st; cbn [while_loop];
    destruct (something_changed st) eqn:Hflag; try discriminate.
  - intros [= <-]. done.
  - destruct (scan1 cs (clear_changed st)) as [st1|e] eqn:Hscan; [|discriminate].
    intros Hloop Hinv. apply (IH st1 Hloop).
    eapply scan_Return; [done.. | by apply sched_inv_clear].
  - intros [= <-]. done.
Qed.

(** The [while] loop is left after at most one pass more than there are
    commands still to schedule. *)
Lemma loop_total cs fuel st :
  sched_inv cs st → length cs < fuel + length (scheduled_cmdids st) →
  is_Some (loop fuel cs st).
Proof.
  revert st. induction fuel as [|fuel IH]; intros st Hinv Hfuel.
  - apply sched_inv_length in Hinv. lia.
  - cbn [while_loop]. destruct (something_changed st) eqn:Hflag; [|eauto].
    destruct (scan1 cs (clear_changed st)) as [st1|e] eqn:Hscan; [|eauto].
    destruct (scan_Return cs cs _ _ Hscan) as [Hinv1 [->|[_ Hlen]]];
      [done | by apply sched_inv_clear | ..].
    + destruct fuel; cbn; eauto.
    + apply IH; [done|]. cbn in Hlen. lia.
Qed.

Lemma loop_fuel_mono cs fuel fuel' st r :
  loop fuel cs st = Some r → (fuel ≤ fuel')%nat → loop fuel' cs st = Some r.
Proof.
  revert fuel' st. induction fuel as [|fuel IH]; intros fuel' st; cbn [while_loop].
  - destruct (something_changed st) eqn:Hflag; [discriminate|].
    intros [= <-] _. destruct fuel'; cbn [while_loop]; by rewrite Hflag.
  - intros Hloop Hle. destruct fuel' as [|fuel']; [lia|]. cbn [while_loop].
    destruct (something_changed st); [|done].
    destruct (scan1 cs (clear_changed st)); [|done].
    apply IH; [done | lia].
Qed.

(** *** After the loop *)

Lemma build_commands_by_id_lookup cs c :
  build_commands_by_id cs !! c = if decide (c ∈ cs) then Some c else None.
Proof.
  unfold build_commands_by_id.
  assert (∀ m : gmap nat ref,
    foldl (λ m c, <[ c := c ]> m) m cs !! c
    = if decide (c ∈ cs) then Some c else m !! c) as Hgen.
  { induction cs as [|x cs IH]; intros m; cbn [foldl].
    - rewrite decide_False; [done | apply not_elem_of_nil].
    - rewrite IH. destruct (decide (c ∈ cs)) as [Hin|Hout].
      + rewrite decide_True; [done | by right].
      + destruct (decide (c = x)) as [->|Hne].
        * rewrite lookup_insert_eq, decide_True; [done | by left].
        * rewrite lookup_insert_ne by done.
          rewrite decide_False; [done|]. by intros [?|?]%elem_of_cons. }
  rewrite Hgen. by rewrite lookup_empty.
Qed.

Lemma getitem_commands_by_id cs l :
  (∀ c, c ∈ l → c ∈ cs) →
  for_each (getitem (build_commands_by_id cs)) l = Return l.
Proof.
  intros Hl. apply for_each_Return_id, list.Forall_forall. intros c Hc.
  unfold getitem. rewrite build_commands_by_id_lookup, decide_True; auto.
Qed.

(** The list [unresolved] is built from the scheduled ids that are not
    scheduled: it is empty. *)
Lemma unresolved_nil (l : list nat) : filter (λ cmdid, cmdid ∉ l) l = [].
Proof.
  destruct (filter (λ cmdid, cmdid ∉ l) l) as [|x k] eqn:Hf; [done|].
  assert (x ∈ filter (λ cmdid, cmdid ∉ l) l) as Hx by (rewrite Hf; by left).
  apply list_elem_of_filter in Hx as [Hout Hin]. done.
Qed.

Lemma finish_scheduled cs l :
  (∀ c, c ∈ l → c ∈ cs) →
  finish h cs (build_commands_by_id cs) l =
    if decide (list_to_set (C := gset nat) cs = list_to_set l)
    then Return l else Raise AssertionError.
Proof.
  intros Hl. unfold finish.
  rewrite (getitem_commands_by_id cs l Hl), unresolved_nil. cbn.
  rewrite decide_False by lia. done.
Qed.

(** *** The whole function *)

Lemma order_commands_fuel_Return fuel commands out :
  order_commands_fuel order h has_dependency_cb fuel commands = Some (Return out) →
  ∃ st, sched_inv (Command_entries h commands) st ∧
        out = scheduled_cmdids st ∧
        ∀ c, c ∈ out ↔ c ∈ Command_entries h commands.
Proof.
  unfold order_commands_fuel.
  destruct (loop fuel _ initial_state) as [[st|e]|] eqn:Hloop; try discriminate.
  destruct (loop_Return _ _ _ _ Hloop) as [Hinv _]; [apply sched_inv_initial|].
  rewrite finish_scheduled by apply Hinv.
  case_decide as Hset; [|discriminate]. intros [= <-].
  exists st. split; [done|]. split; [done|].
  intros c. by rewrite <-(elem_of_list_to_set (C := gset nat) c (scheduled_cmdids st)),
    <-Hset, elem_of_list_to_set.
Qed.

Lemma order_commands_fuel_enough fuel commands :
  (length (Command_entries h commands) < fuel)%nat →
  order_commands_fuel order h has_dependency_cb fuel commands
  = order_commands order h has_dependency_cb commands.
Proof.
  intros Hfuel. unfold order_commands, order_commands_fuel.
  pose proof (length_filter (λ c, is_Command h c = true) commands) as Hlen.
  fold (Command_entries h commands) in Hlen.
  destruct (loop_total (Command_entries h commands) fuel initial_state)
    as [r Hr]; [apply sched_inv_initial | cbn; lia |].
  destruct (decide (fuel ≤ S (length commands))%nat) as [Hle|Hgt].
  - by rewrite (loop_fuel_mono _ _ _ _ _ Hr Hle), Hr.
  - destruct (loop_total (Command_entries h commands) (S (length commands))
      initial_state) as [r' Hr']; [apply sched_inv_initial | cbn; lia |].
    rewrite Hr'. by rewrite (loop_fuel_mono _ _ (fuel) _ _ Hr') by lia.
Qed.

(** [order_commands] leaves its loop: it returns or raises. *)
Lemma order_commands_total commands :
  is_Some (order_commands order h has_dependency_cb commands).
Proof.
  unfold order_commands, order_commands_fuel.
  pose proof (length_filter (λ c, is_Command h c = true) commands) as Hlen.
  fold (Command_entries h commands) in Hlen.
  destruct (loop_total (Command_entries h commands) (S (length commands))
    initial_state) as [[st|e] Hr]; [apply sched_inv_initial | cbn; lia | ..];
    rewrite Hr; eauto.
Qed.

Lemma Command_entries_idemp commands :
  Command_entries h (Command_entries h commands) = Command_entries h commands.
Proof. unfold Command_entries. by apply list_filter_filter_r. Qed.

(** The entries that are not commands play no part. *)
Lemma order_commands_Command_entries commands :
  order_commands order h has_dependency_cb commands
  = order_commands order h has_dependency_cb (Command_entries h commands).
Proof.
  rewrite <-(order_commands_fuel_enough (S (length commands))
    (Command_entries h commands)).
  - unfold order_commands, order_commands_fuel. by rewrite Command_entries_idemp.
  - rewrite Command_entries_idemp.
    pose proof (length_filter (λ c, is_Command h c = true) commands) as Hlen.
    fold (Command_entries h commands) in Hlen. lia.
Qed.

(** *** Where an exception can come from *)

Lemma can_schedule_Raise have reqs e :
  check have reqs = Raise e → ∃ t, t ∈ reqs ∧ has_dependency_cb t = Raise e.
Proof.
  induction reqs as [|req reqs IH]; cbn [can_schedule]; [discriminate|].
  case_decide as Hin.
  - intros (t & Ht & He)%IH. exists t. split; [by right | done].
  - destruct (has_dependency_cb req) as [[|]|e'] eqn:Hreq; cbn.
    + intros (t & Ht & He)%IH. exists t. split; [by right | done].
    + discriminate.
    + intros [= <-]. exists req. split; [by left | done].
Qed.

Lemma visit_Raise st c e :
  is_Command h c = true → visit1 st c = Raise e → raised_by_callback [c] e.
Proof.
  unfold is_Command, visit, getattr. destruct (h c) as [|o|cls] eqn:Hc; try discriminate.
  intros _. case_decide; [discriminate|]. cbn.
  destruct (check _ _) as [[|]|e'] eqn:Hok; cbn; try discriminate.
  intros [= <-]. apply can_schedule_Raise in Hok as (t & Ht & He).
  exists c, o, t. split; [by left|]. split; [done|]. split; [|done].
  apply elem_of_elements. by rewrite <-(enum_perm order c).
Qed.

Lemma raised_by_callback_incl l l' e :
  (∀ c, c ∈ l → c ∈ l') → raised_by_callback l e → raised_by_callback l' e.
Proof. intros Hl (c & o & t & Hc & H'). exists c, o, t. auto. Qed.

Lemma scan_Raise l st e :
  (∀ c, c ∈ l → is_Command h c = true) → scan1 l st = Raise e →
  raised_by_callback l e.
Proof.
  revert st. induction l as [|c l IH]; intros st Hl; cbn [scan]; [discriminate|].
  destruct (visit1 st c) as [st1|e'] eqn:Hv; cbn.
  - intros Hrest%IH; [|intros x Hx; apply Hl; by right].
    eapply raised_by_callback_incl; [|done]. intros x Hx. by right.
  - intros [= <-]. apply visit_Raise in Hv; [|apply Hl; by left].
    eapply raised_by_callback_incl; [|done].
    intros x ->%list_elem_of_singleton. by left.
Qed.

Lemma loop_Raise fuel cs st e :
  (∀ c, c ∈ cs → is_Command h c = true) → loop fuel cs st = Some (Raise e) →
  raised_by_callback cs e.
Proof.
  intros Hcs. revert st. induction fuel as [|fuel IH]; intros st; cbn [while_loop];
    destruct (something_changed st); try discriminate.
  destruct (scan1 cs (clear_changed st)) as [st1|e'] eqn:Hscan.
  - apply IH.
  - intros [= <-]. by eapply scan_Raise.
Qed.

Lemma Command_entries_is_Command commands c :
  c ∈ Command_entries h commands → is_Command h c = true.
Proof. by intros [? _]%list_elem_of_filter. Qed.

(** The only exception of [order_commands] itself is the failed assertion
    at its end; every other one comes out of the callback. *)
Lemma order_commands_Raise commands e :
  order_commands order h has_dependency_cb commands = Some (Raise e) →
  e = AssertionError ∨ raised_by_callback (Command_entries h commands) e.
Proof.
  unfold order_commands, order_commands_fuel.
  destruct (loop _ _ initial_state) as [[st|e']|] eqn:Hloop; try discriminate.
  - destruct (loop_Return _ _ _ _ Hloop) as [Hinv _]; [apply sched_inv_initial|].
    rewrite finish_scheduled by apply Hinv.
    case_decide; [discriminate|]. intros [= <-]. by left.
  - intros [= <-]. right. eapply loop_Raise; [|done].
    apply Command_entries_is_Command.
Qed.

(** *** A callback that always answers makes the order of the sets
    irrelevant *)

Lemma can_schedule_Permutation have reqs reqs' :
  always_answers → reqs ≡ₚ reqs' → check have reqs = check have reqs'.
Proof.
  intros Hcb. induction 1 as [|x l l' _ IH|x y l|l1 l2 l3 _ IH1 _ IH2];
    cbn [can_schedule].
  - done.
  - by rewrite IH.
  - destruct (Hcb x) as [bx ->], (Hcb y) as [by_ ->]. cbn.
    repeat case_decide; destruct bx, by_; done.
  - congruence.
Qed.

Lemma visit_any_order order' st c :
  always_answers → visit order' h has_dependency_cb st c = visit1 st c.
Proof.
  intros Hcb. unfold visit. case_decide; [done|].
  unfold getattr. destruct (h c) as [|o|cls]; [done| |done]. cbn.
  rewrite (can_schedule_Permutation _ (enum order' c (_requires o))
    (enum order c (_requires o))); [done..|].
  by rewrite !enum_perm.
Qed.

Lemma scan_any_order order' l st :
  always_answers → scan order' h has_dependency_cb l st = scan1 l st.
Proof.
  intros Hcb. revert st. induction l as [|c l IH]; intros st; cbn [scan]; [done|].
  rewrite visit_any_order by done. destruct (visit1 st c); cbn; auto.
Qed.

Lemma order_commands_any_order order' commands :
  always_answers →
  order_commands order' h has_dependency_cb commands
  = order_commands order h has_dependency_cb commands.
Proof.
  intros Hcb. unfold order_commands, order_commands_fuel.
  assert (∀ fuel cs st, while_loop order' h has_dependency_cb fuel cs st
    = loop fuel cs st) as ->; [|done].
  induction fuel as [|fuel IH]; intros cs st; cbn [while_loop]; [done|].
  rewrite scan_any_order by done. destruct (something_changed st); [|done].
  destruct (scan1 cs (clear_changed st)); auto.
Qed.

End order_commands_facts.

(** ** Claims about the scheduler *)

Lemma always_false_answers : always_answers always_false.
Proof. intros t. by exists false. Qed.

Lemma Command_entries_all h commands :
  (∀ c, c ∈ commands → is_Command h c = true) → Command_entries h commands = commands.
Proof.
  intros Hall. unfold Command_entries.
  induction commands as [|c l IH]; [done|].
  rewrite filter_cons_True by (apply Hall; by left).
  f_equal. apply IH. intros x Hx. apply Hall. by right.
Qed.

Lemma enum_singleton order c t : enum order c {[ t ]} = [t].
Proof.
  apply Permutation_singleton_r. rewrite enum_perm. by rewrite elements_singleton.
Qed.

Lemma enum_empty order c : enum order c ∅ = [].
Proof. apply Permutation_nil_r. rewrite enum_perm. by rewrite elements_empty. Qed.

(** A command whose requirements are all provided already is scheduled; the
    callback is not consulted. *)
Lemma visit_schedules order h cb st c o :
  c ∉ scheduled_cmdids st → h c = OCommand o →
  _requires o ⊆ have_requirements st →
  visit order h cb st c
  = Return {| have_requirements := have_requirements st ∪ _provides o;
              scheduled_cmdids := scheduled_cmdids st ++ [c];
              something_changed := true |}.
Proof.
  intros Hnew Hc Hsub. unfold visit, getattr.
  rewrite decide_False by done. rewrite Hc. cbn.
  rewrite can_schedule_all_have; [done|].
  apply list.Forall_forall. intros t Ht.
  rewrite enum_perm in Ht. apply elem_of_elements in Ht. set_solver.
Qed.

Example order_B_A order :
  order_commands order Scenario.store always_false [2; 1] = Some (Return [1; 2]).
Proof.
  rewrite (order_commands_any_order elements_order _ _ order)
    by apply always_false_answers.
  vm_compute. reflexivity.
Qed.

(** C1.  Two commands that each require the only tag the other provides, and
    a command whose requirement nobody provides, with a callback that answers
    [False]: the loop is left after a pass that schedules nothing, the list
    [unresolved] is empty, no [ValueError] naming the commands is raised, and
    the call ends in the bare [AssertionError] of the last check.  For every
    input the call comes to an end, and an exception that does not come out
    of the callback is that [AssertionError]. *)
Theorem C1_unresolved_ends_in_AssertionError order :
  order_commands order Cycle.store always_false [1; 2] = Some (Raise AssertionError)
  ∧ order_commands order Cycle.store always_false [3] = Some (Raise AssertionError)
  ∧ (∀ l : list nat, filter (λ cmdid, cmdid ∉ l) l = [])
  ∧ (∀ h cb commands, is_Some (order_commands order h cb commands))
  ∧ (∀ h cb commands e,
       order_commands order h cb commands = Some (Raise e) →
       e = AssertionError ∨ raised_by_callback h cb (Command_entries h commands) e).
Proof.
  rewrite !(order_commands_any_order elements_order _ _ order)
    by apply always_false_answers.
  split; [by vm_compute|]. split; [by vm_compute|].
  split; [apply unresolved_nil|].
  split; [intros h cb commands; apply order_commands_total|].
  intros h cb commands e. apply order_commands_Raise.
Qed.

(** C2, counterexample.  The list [[A, A]], the same command twice, is
    ordered without error and the result [[A]] is not a permutation of it. *)
Lemma C2_same_object_twice :
  order_commands elements_order Scenario.store always_false [1; 1] = Some (Return [1])
  ∧ ¬ [1] ≡ₚ [1; 1].
Proof.
  split; [by vm_compute|]. intros Hp. apply Permutation_length in Hp. discriminate.
Qed.

(** C2, as it holds of the code.
    When [order_commands] returns for a list of commands, the
    result has no duplicates and holds exactly the commands of the input;
    it is a permutation of the input when no command occurs twice in it. *)
Theorem C2_output_is_the_input_set order h cb commands out :
  order_commands order h cb commands = Some (Return out) →
  (∀ c, c ∈ commands → is_Command h c = true) →
  NoDup out ∧ (∀ c, c ∈ out ↔ c ∈ commands) ∧ (NoDup commands → out ≡ₚ commands).
Proof.
  intros (st & Hinv & -> & Hsame)%order_commands_fuel_Return Hall.
  rewrite (Command_entries_all h commands Hall) in Hsame.
  pose proof (inv_nodup _ _ _ _ Hinv) as Hnd.
  split; [done|]. split; [done|].
  intros Hnd'. by apply NoDup_Permutation.
Qed.

Lemma C2_output_is_the_input_set_witness :
  NoDup [1; 2] ∧ (∀ c, c ∈ [1; 2] ↔ c ∈ [2; 1]) ∧ (NoDup [2; 1] → [1; 2] ≡ₚ [2; 1]).
Proof.
  apply (C2_output_is_the_input_set elements_order Scenario.store always_false).
  - vm_compute. reflexivity.
  - intros c Hc. apply list_elem_of_In in Hc. simpl in Hc.
    destruct Hc as [<-|[<-|[]]]; reflexivity.
Defined.

(** C3.  One pass over [[a, b]], where [a] requires nothing and provides
    every tag that [b] requires, schedules both: the tags of [a] are in
    [have_requirements] when [b] is visited, whatever the callback would say.
    And [order_commands([B, A])] is [[A, B]] for the commands of the
    scenario, with a callback that answers [False]. *)
Theorem C3_provides_count_within_the_pass order :
  (∀ h cb a b oa ob,
     a ≠ b → h a = OCommand oa → h b = OCommand ob →
     _requires oa = ∅ → _requires ob ⊆ _provides oa →
     scan order h cb [a; b] (clear_changed initial_state)
     = Return {| have_requirements := ∅ ∪ _provides oa ∪ _provides ob;
                 scheduled_cmdids := [a; b];
                 something_changed := true |})
  ∧ order_commands order Scenario.store always_false [2; 1] = Some (Return [1; 2]).
Proof.
  split; [|apply order_B_A].
  intros h cb a b oa ob Hab Ha Hb Hreq Hsub. cbn [scan].
  rewrite (visit_schedules order h cb _ a oa); cbn;
    [|apply not_elem_of_nil | done | rewrite Hreq; set_solver].
  rewrite (visit_schedules order h cb _ b ob); cbn;
    [done | by intros ->%list_elem_of_singleton | done | set_solver].
Qed.

Lemma C3_provides_count_within_the_pass_witness :
  scan elements_order Scenario.store always_false [1; 2]
    (clear_changed initial_state)
  = Return {| have_requirements := ∅ ∪ _provides Scenario.A ∪ _provides Scenario.B;
              scheduled_cmdids := [1; 2];
              something_changed := true |}.
Proof.
  destruct (C3_provides_count_within_the_pass elements_order) as [Hpass _].
  apply Hpass.
  - discriminate.
  - reflexivity.
  - reflexivity.
  - reflexivity.
  - apply (bool_decide_unpack _). vm_compute. reflexivity.
Defined.

Lemma order_commands_precedence order h cb commands out i D d t :
  order_commands order h cb commands = Some (Return out) →
  out !! i = Some D → h D = OCommand d → t ∈ _requires d →
  cb t ≠ Return true →
  provided_before h out i t.
Proof.
  intros (st & Hinv & -> & _)%order_commands_fuel_Return Hi HD Ht Hcb.
  exact (inv_prec _ _ _ _ Hinv i D d t Hi HD Ht Hcb).
Qed.

(** C4.  In a returned order, a tag that the command at position [i]
    requires and for which the callback does not answer [True] is provided
    by a command at a position before [i]. *)
Theorem C4_provider_comes_first order h cb commands out i D d t :
  order_commands order h cb commands = Some (Return out) →
  out !! i = Some D → h D = OCommand d → t ∈ _requires d →
  cb t ≠ Return true →
  ∃ j P p, j < i ∧ out !! j = Some P ∧ h P = OCommand p ∧ t ∈ _provides p.
Proof.
  intros Hout Hi HD Ht Hcb.
  exact (order_commands_precedence order h cb commands out i D d t Hout Hi HD Ht Hcb).
Qed.

Lemma C4_provider_comes_first_witness :
  ∃ j P p, j < 1 ∧ [1; 2] !! j = Some P ∧ Scenario.store P = OCommand p
           ∧ ("snapshot", "s1") ∈ _provides p.
Proof.
  apply (C4_provider_comes_first elements_order Scenario.store always_false
           [2; 1] [1; 2] 1 2 Scenario.B ("snapshot", "s1")).
  - vm_compute. reflexivity.
  - reflexivity.
  - reflexivity.
  - apply (bool_decide_unpack _). vm_compute. reflexivity.
  - discriminate.
Defined.

Example order_with_None_entries order :
  order_commands order Scenario.store always_false [0; 2; 0; 1] = Some (Return [1; 2]).
Proof.
  rewrite (order_commands_any_order elements_order _ _ order)
    by apply always_false_answers.
  vm_compute. reflexivity.
Qed.

(** C10, counterexample.  The list [[A, None, A]]: its entries of class
    [Command] are [[A, A]], and the result [[A]] is not a permutation of
    them. *)
Lemma C10_command_twice_around_None :
  order_commands elements_order Scenario.store always_false [1; 0; 1]
  = Some (Return [1])
  ∧ Command_entries Scenario.store [1; 0; 1] = [1; 1]
  ∧ ¬ [1] ≡ₚ Command_entries Scenario.store [1; 0; 1].
Proof.
  split; [by vm_compute|]. split; [by vm_compute|].
  intros Hp. apply Permutation_length in Hp. discriminate.
Qed.

(** C10, as it holds of the code.
    [order_commands] gives for a list what it gives for the entries of
    the list whose class is [Command]: the other entries are dropped before
    the loops and cause no exception (an exception is the failed assertion or
    comes from the callback, asked about a requirement of a command).  A
    returned order has no duplicates, holds exactly the entries that are
    commands, and is a permutation of them when none of them is repeated. *)
Theorem C10_other_entries_are_dropped order h cb commands :
  order_commands order h cb commands
    = order_commands order h cb (Command_entries h commands)
  ∧ (∀ out, order_commands order h cb commands = Some (Return out) →
       NoDup out
       ∧ (∀ c, c ∈ out ↔ c ∈ commands ∧ is_Command h c = true)
       ∧ (NoDup (Command_entries h commands) → out ≡ₚ Command_entries h commands))
  ∧ (∀ e, order_commands order h cb commands = Some (Raise e) →
       e = AssertionError ∨ raised_by_callback h cb (Command_entries h commands) e).
Proof.
  split; [apply order_commands_Command_entries|].
  split; [|apply order_commands_Raise].
  intros out (st & Hinv & -> & Hsame)%order_commands_fuel_Return.
  pose proof (inv_nodup _ _ _ _ Hinv) as Hnd.
  split; [done|]. split.
  - intros c. rewrite Hsame. unfold Command_entries.
    rewrite list_elem_of_filter. tauto.
  - intros Hnd'. by apply NoDup_Permutation.
Qed.

Lemma C10_other_entries_are_dropped_witness :
  NoDup [1; 2]
  ∧ (∀ c, c ∈ [1; 2] ↔ c ∈ [0; 2; 0; 1] ∧ is_Command Scenario.store c = true)
  ∧ (NoDup (Command_entries Scenario.store [0; 2; 0; 1]) →
       [1; 2] ≡ₚ Command_entries Scenario.store [0; 2; 0; 1]).
Proof.
  destruct (C10_other_entries_are_dropped elements_order Scenario.store
              always_false [0; 2; 0; 1]) as (_ & Hout & _).
  apply Hout. vm_compute. reflexivity.
Defined.

Lemma any_not_provided : "any" ∉ provided_kinds.
Proof. apply (bool_decide_unpack _). by vm_compute. Qed.

(** A single command with a single requirement: the result is what the
    callback says about that very tag. *)
Lemma order_single order h cb c o t :
  h c = OCommand o → _requires o = {[ t ]} →
  order_commands order h cb [c] =
    match cb t with
    | Return true => Some (Return [c])
    | Return false => Some (Raise AssertionError)
    | Raise e => Some (Raise e)
    end.
Proof.
  intros Hc Hreq. unfold order_commands, order_commands_fuel.
  rewrite Command_entries_all
    by (intros x ->%list_elem_of_singleton; unfold is_Command; by rewrite Hc).
  cbn [length while_loop initial_state something_changed scan].
  unfold visit at 1, getattr.
  cbn [clear_changed scheduled_cmdids have_requirements].
  rewrite decide_False by apply not_elem_of_nil. rewrite Hc.
  cbn -[finish build_commands_by_id].
  rewrite Hreq, enum_singleton. cbn [can_schedule].
  rewrite decide_False by apply not_elem_of_empty.
  destruct (cb t) as [[|]|e]; cbn -[finish build_commands_by_id]; [| |done].
  - unfold visit. cbn -[finish build_commands_by_id].
    rewrite decide_True by (by left). cbn -[finish build_commands_by_id].
    rewrite finish_scheduled by done. by rewrite decide_True.
  - rewrite finish_scheduled by (by intros x ?%elem_of_nil).
    rewrite decide_False; [done|]. cbn. clear. set_solver.
Qed.

(** C5, counterexample.  For a command that requires [(any, x)] the callback
    [state.has_dependency] is called with that tag, and it does not answer:
    formatting its message raises [TypeError], which leaves [order_commands]. *)
Lemma C5_any_is_asked_and_rejected :
  order_commands elements_order AnyKind.store (oracle SystemStateReader__init__) [1]
  = Some (Raise (TypeError "not all arguments converted during string formatting")).
Proof. vm_compute. reflexivity. Qed.

(** C5, as it holds of the code.
    In a store whose provided tags have the kinds [provide]
    accepts, a command with a requirement of kind [any] is in a returned
    order only if the callback answers [True] for that tag, unchanged; for a
    command with this single requirement the result is the answer of the
    callback for it.  [SystemStateReader.has_dependency] raises for every tag
    of kind [any], so with it as the callback no returned order holds a
    command with such a requirement. *)
Theorem C5_any_is_left_to_the_callback order h commands :
  provides_well_formed h →
  (∀ cb out D d x,
     order_commands order h cb commands = Some (Return out) →
     D ∈ out → h D = OCommand d → ("any", x) ∈ _requires d →
     cb ("any", x) = Return true)
  ∧ (∀ cb c o x,
       h c = OCommand o → _requires o = {[ ("any", x) ]} →
       order_commands order h cb [c] =
         match cb ("any", x) with
         | Return true => Some (Return [c])
         | Return false => Some (Raise AssertionError)
         | Raise e => Some (Raise e)
         end)
  ∧ (∀ st x, ∃ e, oracle st ("any", x) = Raise e)
  ∧ (∀ st out D d x,
       order_commands order h (oracle st) commands = Some (Return out) →
       D ∈ out → h D = OCommand d → ("any", x) ∉ _requires d).
Proof.
  intros Hwf.
  assert (∀ cb out D d x,
     order_commands order h cb commands = Some (Return out) →
     D ∈ out → h D = OCommand d → ("any", x) ∈ _requires d →
     cb ("any", x) = Return true) as Hany.
  { intros cb out D d x Hout [i Hi]%list_elem_of_lookup HD Hreq.
    destruct (cb ("any", x)) as [[|]|e] eqn:Hcb; [done|exfalso..].
    all: destruct (order_commands_precedence order h cb commands out i D d
           ("any", x) Hout Hi HD Hreq) as (j & P & p & _ & _ & HP & Hprov);
           [by rewrite Hcb|].
    all: apply (Hwf P p _ HP) in Hprov; cbn in Hprov.
    all: by apply any_not_provided in Hprov. }
  split; [done|]. split; [intros cb c o x; apply order_single|].
  split; [intros st x; by eexists|].
  intros st out D d x Hout HD Hd Hreq.
  by specialize (Hany _ _ _ _ _ Hout HD Hd Hreq).
Qed.

Lemma provides_well_formed_no_objects : provides_well_formed no_objects.
Proof. intros c o t Hc. discriminate. Qed.

Lemma provides_well_formed_insert h c o :
  provides_well_formed h →
  (∀ t, t ∈ _provides o → t.1 ∈ provided_kinds) →
  provides_well_formed (<[ c := OCommand o ]> h).
Proof.
  intros Hwf Ho c' o' t. destruct (decide (c' = c)) as [->|Hne].
  - rewrite fn_lookup_insert. intros [= <-]. apply Ho.
  - rewrite fn_lookup_insert_ne by done. apply Hwf.
Qed.

(** [provide] and [require] keep the store well formed. *)
Lemma provide_keeps_well_formed h self type_ identifier r h' :
  provides_well_formed h → provide self type_ identifier h = (r, h') →
  provides_well_formed h'.
Proof.
  intros Hwf. unfold provide. destruct (h self) as [|c|cls] eqn:Hself.
  - by intros [= _ <-].
  - case_decide as Hk; [|by intros [= _ <-]]. intros [= _ <-].
    apply provides_well_formed_insert; [done|]. cbn.
    intros t [->%elem_of_singleton|Ht]%elem_of_union; [done|]. by eapply Hwf.
  - by intros [= _ <-].
Qed.

Lemma require_keeps_well_formed h self type_ identifier r h' :
  provides_well_formed h → require self type_ identifier h = (r, h') →
  provides_well_formed h'.
Proof.
  intros Hwf. unfold require. destruct (h self) as [|c|cls] eqn:Hself.
  - by intros [= _ <-].
  - case_decide as Hk; [|by intros [= _ <-]]. intros [= _ <-].
    apply provides_well_formed_insert; [done|]. cbn. intros t Ht. by eapply Hwf.
  - by intros [= _ <-].
Qed.

Lemma C5_any_is_left_to_the_callback_witness :
  provides_well_formed AnyKind.store
  ∧ order_commands elements_order AnyKind.store always_false [1]
    = Some (Raise AssertionError).
Proof.
  assert (provides_well_formed AnyKind.store) as Hwf.
  { apply provides_well_formed_insert; [apply provides_well_formed_no_objects|].
    intros t Ht. by apply not_elem_of_empty in Ht. }
  split; [exact Hwf|].
  destruct (C5_any_is_left_to_the_callback elements_order AnyKind.store [1] Hwf)
    as (_ & Hsingle & _).
  apply (Hsingle always_false 1 AnyKind.W "x"); [reflexivity|].
  cbn. apply (right_id_L ∅ (∪)).
Defined.

(** ** Claims about [require] and [provide] *)

(** C7.  [require] adds the tag to [_requires] when the kind is one of
    [snapshot], [mirror], [repo], [any], and raises the [AssertionError] of
    its [assert] otherwise; [provide] does the same with [_provides] and the
    kinds [snapshot], [mirror], [repo], [publish].  When they raise, the
    store is as it was. *)
Theorem C7_require_and_provide_check_the_kind h self c type_ identifier :
  h self = OCommand c →
  (type_ ∈ required_kinds ↔
     type_ = "snapshot" ∨ type_ = "mirror" ∨ type_ = "repo" ∨ type_ = "any")
  ∧ (type_ ∈ provided_kinds ↔
       type_ = "snapshot" ∨ type_ = "mirror" ∨ type_ = "repo" ∨ type_ = "publish")
  ∧ (type_ ∈ required_kinds →
       ∃ h', require self type_ identifier h = (Return (), h')
             ∧ getattr _requires h' self
               = Return ({[ (type_, identifier) ]} ∪ _requires c)
             ∧ getattr _provides h' self = Return (_provides c)
             ∧ ∀ r, r ≠ self → h' r = h r)
  ∧ (type_ ∉ required_kinds →
       require self type_ identifier h = (Raise AssertionError, h))
  ∧ (type_ ∈ provided_kinds →
       ∃ h', provide self type_ identifier h = (Return (), h')
             ∧ getattr _provides h' self
               = Return ({[ (type_, identifier) ]} ∪ _provides c)
             ∧ getattr _requires h' self = Return (_requires c)
             ∧ ∀ r, r ≠ self → h' r = h r)
  ∧ (type_ ∉ provided_kinds →
       provide self type_ identifier h = (Raise AssertionError, h)).
Proof.
  intros Hself. unfold require, provide, required_kinds, provided_kinds.
  rewrite Hself.
  split; [rewrite !elem_of_cons, elem_of_nil; tauto|].
  split; [rewrite !elem_of_cons, elem_of_nil; tauto|].
  split; [|split; [|split]].
  - intros Hk. rewrite decide_True by done. eexists. split; [done|].
    unfold getattr. rewrite fn_lookup_insert. cbn.
    split; [done|]. split; [done|]. intros r Hr. by rewrite fn_lookup_insert_ne.
  - intros Hk. by rewrite decide_False.
  - intros Hk. rewrite decide_True by done. eexists. split; [done|].
    unfold getattr. rewrite fn_lookup_insert. cbn.
    split; [done|]. split; [done|]. intros r Hr. by rewrite fn_lookup_insert_ne.
  - intros Hk. by rewrite decide_False.
Qed.

Lemma C7_require_and_provide_check_the_kind_witness :
  require 1 "publish" "p" Scenario.store = (Raise AssertionError, Scenario.store)
  ∧ provide 1 "any" "p" Scenario.store = (Raise AssertionError, Scenario.store).
Proof.
  destruct (C7_require_and_provide_check_the_kind Scenario.store 1 Scenario.A
              "publish" "p" eq_refl) as (_ & _ & _ & Hreq & _).
  destruct (C7_require_and_provide_check_the_kind Scenario.store 1 Scenario.A
              "any" "p" eq_refl) as (_ & _ & _ & _ & _ & Hprov).
  split; [apply Hreq | apply Hprov]; apply (bool_decide_unpack _); by vm_compute.
Defined.

(** ** Claims about the oracle *)

(** C8.  [has_dependency] answers with the membership of the name in
    [mirrors], [snapshots] or [gpg_keys] for the kinds [mirror], [snapshot]
    and [gpg_key], raises for every other kind (the exception that comes out
    is the [TypeError] of formatting the message with the tuple), and leaves
    the state as it is. *)
Theorem C8_has_dependency_answers_or_raises st type_ name :
  (has_dependency (type_, name) st).2 = st
  ∧ (type_ = "mirror" →
       (has_dependency (type_, name) st).1 = Return (bool_decide (name ∈ mirrors st)))
  ∧ (type_ = "snapshot" →
       (has_dependency (type_, name) st).1 = Return (bool_decide (name ∈ snapshots st)))
  ∧ (type_ = "gpg_key" →
       (has_dependency (type_, name) st).1 = Return (bool_decide (name ∈ gpg_keys st)))
  ∧ (type_ ≠ "mirror" → type_ ≠ "snapshot" → type_ ≠ "gpg_key" →
       (has_dependency (type_, name) st).1
       = Raise (TypeError "not all arguments converted during string formatting")).
Proof.
  unfold has_dependency.
  split; [by repeat case_decide|].
  split; [by intros ->|]. split; [by intros ->|]. split; [by intros ->|].
  intros H1 H2 H3. by rewrite !decide_False.
Qed.

Lemma C8_has_dependency_answers_or_raises_witness :
  (has_dependency ("repo", "r") SystemStateReader__init__).1
  = Raise (TypeError "not all arguments converted during string formatting").
Proof.
  destruct (C8_has_dependency_answers_or_raises SystemStateReader__init__ "repo" "r")
    as (_ & _ & _ & _ & Hother).
  apply Hother; discriminate.
Defined.

(** [s[n:]] is a suffix of [s], shorter by [n] characters. *)
Lemma slice_from_length n s :
  String.length (slice_from n s) = String.length s - n.
Proof.
  revert s. induction n as [|n IH]; intros s; [cbn; lia|].
  destruct s as [|a s]; cbn; [done | apply IH].
Qed.

Lemma slice_from_suffix n s : ∃ p, s = p ++ slice_from n s.
Proof.
  revert s. induction n as [|n IH]; intros s; [by exists ""|].
  destruct s as [|a s]; cbn; [by exists ""|].
  destruct (IH s) as [p Hp]. exists (String a p).
  change (String a s = String a (p ++ slice_from n s)). by f_equal.
Qed.

Lemma slice_last_length n s :
  (n ≤ String.length s)%nat → String.length (slice_last n s) = n.
Proof. intros Hn. unfold slice_last. rewrite slice_from_length. lia. Qed.

Lemma read_gpg_lines_mono lines st r st' :
  read_gpg_lines lines st = (r, st') → gpg_keys st ⊆ gpg_keys st'.
Proof.
  revert st. induction lines as [|line lines IH]; intros st; cbn [read_gpg_lines].
  - by intros [= _ <-].
  - destruct (split colon line !! 0) as [field0|]; [|by intros [= _ <-]].
    case_decide; [|apply IH].
    destruct (split colon line !! 4) as [key|]; [|by intros [= _ <-]].
    intros Hrest%IH. cbn in Hrest. set_solver.
Qed.

Lemma read_gpg_lines_registers lines st st' line key :
  read_gpg_lines lines st = (Return (), st') →
  line ∈ lines →
  split colon line !! 0 = Some "pub" →
  split colon line !! 4 = Some key →
  key ∈ gpg_keys st' ∧ slice_from 8 key ∈ gpg_keys st'.
Proof.
  revert st. induction lines as [|l lines IH]; intros st Hread Hin H0 H4.
  - by apply elem_of_nil in Hin.
  - cbn [read_gpg_lines] in Hread.
    apply elem_of_cons in Hin as [<-|Hin].
    + rewrite H0, decide_True, H4 in Hread by done.
      apply read_gpg_lines_mono in Hread. cbn in Hread. clear IH. set_solver.
    + destruct (split colon l !! 0) as [field0|]; [|done].
      case_decide; [|by eapply IH].
      destruct (split colon l !! 4) as [key'|]; [|done]. by eapply IH.
Qed.

Lemma oracle_gpg_key st name :
  oracle st ("gpg_key", name) = Return (bool_decide (name ∈ gpg_keys st)).
Proof.
  unfold oracle, has_dependency.
  rewrite decide_False by done. rewrite decide_False by done.
  by rewrite decide_True.
Qed.

Lemma split_has_first sep s : is_Some (split sep s !! 0).
Proof.
  destruct s as [|a s]; cbn; [by eexists|].
  case_decide; [by eexists|]. destruct (split sep s); by eexists.
Qed.

(** A [pub] line of a listing in the format of [gpg] has a key id of 16
    characters in its fifth field. *)
Lemma pub_line_ok_key line :
  pub_line_ok line = true → split colon line !! 0 = Some "pub" →
  ∃ key, split colon line !! 4 = Some key ∧ String.length key = 16.
Proof.
  unfold pub_line_ok. intros Hok H0. rewrite H0, decide_True in Hok by done.
  destruct (split colon line !! 4) as [key|]; [|done].
  exists key. split; [done|]. by apply bool_decide_eq_true_1 in Hok.
Qed.

(** On a listing in that format the loop of [read_gpg] comes to its end. *)
Lemma read_gpg_lines_returns lines : ∀ st,
  Forall (λ line, pub_line_ok line = true) lines →
  ∃ st', read_gpg_lines lines st = (Return (), st').
Proof.
  induction lines as [|line lines IH]; intros st Hok; cbn [read_gpg_lines];
    [by eexists|].
  apply list.Forall_cons in Hok as [Hline Hok].
  destruct (split_has_first colon line) as [field0 H0]. rewrite H0.
  case_decide as Hpub; [|by apply IH]. subst field0.
  destruct (pub_line_ok_key line Hline H0) as (key & -> & _). by apply IH.
Qed.

(** C9.  For a keyring listing in the format that [gpg --list-keys
    --with-colons] prints, [read_gpg] returns, and for every [pub] line of
    the listing it has registered the key of the line and the last 8
    characters of that key: both are in [gpg_keys], and a query for either
    answers [True]. *)
Theorem C9_read_gpg_registers_both_forms data st :
  colon_listing data →
  ∃ st',
    read_gpg (Return data) st = (Return (), st')
    ∧ ∀ line, line ∈ split newline data → split colon line !! 0 = Some "pub" →
        ∃ key, split colon line !! 4 = Some key
          ∧ String.length (slice_last 8 key) = 8
          ∧ key ∈ gpg_keys st' ∧ slice_last 8 key ∈ gpg_keys st'
          ∧ oracle st' ("gpg_key", key) = Return true
          ∧ oracle st' ("gpg_key", slice_last 8 key) = Return true.
Proof.
  intros Hformat. unfold read_gpg.
  destruct (read_gpg_lines_returns (split newline data)
              {| gpg_keys := ∅; mirrors := mirrors st; snapshots := snapshots st |}
              Hformat) as [st' Hread].
  exists st'. split; [done|]. intros line Hline H0.
  unfold colon_listing in Hformat. rewrite list.Forall_forall in Hformat.
  destruct (pub_line_ok_key line (Hformat line Hline) H0) as (key & H4 & Hlen).
  destruct (read_gpg_lines_registers _ _ _ _ _ Hread Hline H0 H4) as [Hk Hs].
  assert (slice_last 8 key = slice_from 8 key) as Hlast
    by (unfold slice_last; by rewrite Hlen).
  exists key. rewrite !oracle_gpg_key, Hlast.
  split; [done|]. split; [rewrite <-Hlast; apply slice_last_length; lia|].
  split; [done|]. split; [done|].
  split; by rewrite bool_decide_eq_true_2.
Qed.

Lemma C9_read_gpg_registers_both_forms_witness :
  ∃ st',
    read_gpg (Return (Keyring.listing Keyring.line16)) SystemStateReader__init__
    = (Return (), st')
    ∧ ∀ line, line ∈ split newline (Keyring.listing Keyring.line16) →
        split colon line !! 0 = Some "pub" →
        ∃ key, split colon line !! 4 = Some key
          ∧ String.length (slice_last 8 key) = 8
          ∧ key ∈ gpg_keys st' ∧ slice_last 8 key ∈ gpg_keys st'
          ∧ oracle st' ("gpg_key", key) = Return true
          ∧ oracle st' ("gpg_key", slice_last 8 key) = Return true.
Proof.
  apply (C9_read_gpg_registers_both_forms (Keyring.listing Keyring.line16)
           SystemStateReader__init__).
  apply (bool_decide_unpack _). vm_compute. reflexivity.
Defined.

Example read_gpg_key16 :
  oracle (read_gpg (Return (Keyring.listing Keyring.line16))
            SystemStateReader__init__).2 ("gpg_key", "0123456789ABCDEF") = Return true
  ∧ oracle (read_gpg (Return (Keyring.listing Keyring.line16))
              SystemStateReader__init__).2 ("gpg_key", "89ABCDEF") = Return true.
Proof. split; by vm_compute. Qed.

(** ** Claims about [execute] *)

Section execute_facts.

Context (launch : list (list string) → list string → outcome Z).

Lemma execute_finished self w c r :
  objects w self = OCommand c → _finished c = Some r →
  execute launch self w = (Return r, w).
Proof. intros Hc Hr. unfold execute. by rewrite Hc, Hr. Qed.

Lemma execute_times_finished n self w c r :
  objects w self = OCommand c → _finished c = Some r →
  execute_times launch n self w = (replicate n (Return r), w).
Proof.
  intros Hc Hr. induction n as [|n IH]; [done|].
  cbn [execute_times]. by rewrite (execute_finished self w c r), IH.
Qed.

(** A call that returns has stored what it returns. *)
Lemma execute_Return self w r w' :
  execute launch self w = (Return r, w') →
  ∃ c, objects w' self = OCommand c ∧ _finished c = Some r.
Proof.
  unfold execute. destruct (objects w self) as [|c|cls] eqn:Hc; try discriminate.
  destruct (_finished c) as [r'|] eqn:Hr.
  - intros [= <- <-]. eauto.
  - destruct (check_call launch (cmd c) w) as [[r'|e] w1]; [|discriminate].
    intros [= <- <-]. cbn. rewrite fn_lookup_insert. eauto.
Qed.

(** A call that raises has stored nothing. *)
Lemma execute_Raise self w e w' :
  execute launch self w = (Raise e, w') → objects w' = objects w.
Proof.
  unfold execute. destruct (objects w self) as [|c|cls]; try by intros [= _ <-].
  destruct (_finished c); [discriminate|].
  unfold check_call. destruct (launch (calls w) (cmd c)) as [rc|e'].
  - case_decide; [discriminate|]. by intros [= _ <-].
  - by intros [= _ <-].
Qed.

(** A call on a command without result launches the argument vector. *)
Lemma execute_launches self w c :
  objects w self = OCommand c → _finished c = None →
  calls (execute launch self w).2 = (calls w ++ [cmd c])%list.
Proof.
  intros Hc Hr. unfold execute, check_call. rewrite Hc, Hr.
  destruct (launch (calls w) (cmd c)) as [rc|e]; [case_decide|]; done.
Qed.

End execute_facts.

(** C6, counterexample.  The first launch fails and [execute] raises; the
    second call of [execute] launches the argument vector again and returns
    [0]; the third call returns the stored [0].  The argument vector has
    been launched twice. *)
Lemma C6_launched_twice_in_a_lifetime :
  (execute_times Retry.launch 3 1 Retry.start).1
    = [Raise (CalledProcessError 1 Retry.argv); Return 0%Z; Return 0%Z]
  ∧ calls (execute_times Retry.launch 3 1 Retry.start).2 = [Retry.argv; Retry.argv].
Proof. split; by vm_compute. Qed.

(** C6, as it holds of the code.
    Once [execute] has returned, its result is stored, and
    every later call returns that result and leaves the world as it is: the
    argument vector is not launched again.  A call that raises stores
    nothing, and a call on a command without stored result launches the
    argument vector, so that the vector is launched once more for every call
    before the first that returns. *)
Theorem C6_result_is_memoized launch self w c :
  objects w self = OCommand c →
  (∀ r w', execute launch self w = (Return r, w') →
     (∃ c', objects w' self = OCommand c' ∧ _finished c' = Some r)
     ∧ ∀ n, execute_times launch n self w' = (replicate n (Return r), w'))
  ∧ (∀ e w', execute launch self w = (Raise e, w') → objects w' = objects w)
  ∧ (_finished c = None → calls (execute launch self w).2 = (calls w ++ [cmd c])%list)
  ∧ (∀ r, _finished c = Some r → execute launch self w = (Return r, w)).
Proof.
  intros Hc. split; [|split; [|split]].
  - intros r w' Hex. destruct (execute_Return launch self w r w' Hex) as (c' & Hc' & Hr).
    split; [eauto|]. intros n. by apply execute_times_finished with c'.
  - apply execute_Raise.
  - by apply execute_launches.
  - intros r. by apply execute_finished.
Qed.

Lemma C6_result_is_memoized_witness :
  Retry.store 1 = OCommand (Command__init__ Retry.argv)
  ∧ calls (execute Retry.launch 1 Retry.start).2 = ([] ++ [Retry.argv])%list.
Proof.
  split; [reflexivity|].
  destruct (C6_result_is_memoized Retry.launch 1 Retry.start
              (Command__init__ Retry.argv) eq_refl) as (_ & _ & Hlaunch & _).
  apply Hlaunch. reflexivity.
Defined.

(** ** More about the scheduler *)

Section scheduler_completeness.

Context (order : iteration_order) (h : heap).
Context (has_dependency_cb : tag → outcome bool).

Local Abbreviation check := (can_schedule has_dependency_cb).
Local Abbreviation visit1 := (visit order h has_dependency_cb).
Local Abbreviation scan1 := (scan order h has_dependency_cb).
Local Abbreviation loop := (while_loop order h has_dependency_cb).
Local Abbreviation met := (met has_dependency_cb).
Local Abbreviation valid_order := (valid_order h has_dependency_cb).
Local Abbreviation have_complete := (have_complete h).

Local Open Scope list_scope.

Lemma can_schedule_met have reqs :
  Forall (met have) reqs → check have reqs = Return true.
Proof.
  induction 1 as [|req reqs Hreq _ IH]; cbn [can_schedule]; [done|].
  case_decide as Hin; [done|]. destruct Hreq as [? | ->]; done.
Qed.

Lemma can_schedule_false have reqs :
  check have reqs = Return false →
  ∃ t, t ∈ reqs ∧ (t ∉ have) ∧ has_dependency_cb t = Return false.
Proof.
  induction reqs as [|req reqs IH]; cbn [can_schedule]; [discriminate|].
  case_decide as Hin.
  - intros (t & Ht & H')%IH. exists t. split; [by right | done].
  - destruct (has_dependency_cb req) as [[|]|e] eqn:Hreq; cbn.
    + intros (t & Ht & H')%IH. exists t. split; [by right | done].
    + intros _. exists req. split; [by left | done].
    + discriminate.
Qed.

(** A command whose requirements are met is scheduled by its visit. *)
Lemma visit_met st c o :
  c ∉ scheduled_cmdids st → h c = OCommand o →
  (∀ t, t ∈ _requires o → met (have_requirements st) t) →
  visit1 st c
  = Return {| have_requirements := have_requirements st ∪ _provides o;
              scheduled_cmdids := scheduled_cmdids st ++ [c];
              something_changed := true |}.
Proof.
  intros Hnew Hc Hmet. unfold visit, getattr.
  rewrite decide_False by done. rewrite Hc. cbn.
  rewrite can_schedule_met; [done|].
  apply list.Forall_forall. intros t Ht. apply Hmet.
  rewrite enum_perm in Ht. by apply elem_of_elements in Ht.
Qed.

Lemma visit_scheduled st c : c ∈ scheduled_cmdids st → visit1 st c = Return st.
Proof. intros Hc. unfold visit. by rewrite decide_True. Qed.

Lemma scan_all_scheduled l st :
  (∀ c, c ∈ l → c ∈ scheduled_cmdids st) → scan1 l st = Return st.
Proof.
  induction l as [|c l IH]; intros Hl; cbn [scan]; [done|].
  rewrite visit_scheduled by (apply Hl; by left). cbn.
  apply IH. intros x Hx. apply Hl. by right.
Qed.

(** One pass over the rest [l2] of a valid order [l1 ++ l2], when [l1] is
    scheduled, schedules [l2] in its order. *)
Lemma scan_valid_suffix l2 : ∀ l1 st,
  valid_order (l1 ++ l2) → scheduled_cmdids st = l1 → have_complete st →
  ∃ st', scan1 l2 st = Return st' ∧ scheduled_cmdids st' = l1 ++ l2 ∧
         (l2 = [] → st' = st) ∧ (l2 ≠ [] → something_changed st' = true).
Proof.
  induction l2 as [|D l2 IH]; intros l1 st Hvalid Hsched Hcomplete.
  { exists st. rewrite app_nil_r. done. }
  destruct Hvalid as (Hnd & Hcmd & Hprec).
  assert (D ∉ l1) as Hnew.
  { apply list.NoDup_app in Hnd as (_ & Hdisj & _). intros HD.
    apply (Hdisj D HD). by left. }
  assert (is_Command h D = true) as HDc by (apply Hcmd, elem_of_app; right; by left).
  unfold is_Command in HDc. destruct (h D) as [|d|cls] eqn:HD; try discriminate.
  cbn [scan]. rewrite (visit_met st D d); cbn.
  - destruct (IH (l1 ++ [D])
      {| have_requirements := have_requirements st ∪ _provides d;
         scheduled_cmdids := scheduled_cmdids st ++ [D];
         something_changed := true |}) as (st' & Hscan & Hs' & Hnil & Hflag).
    + rewrite <-app_assoc. done.
    + cbn. by rewrite Hsched.
    + intros P p [HP| ->%list_elem_of_singleton]%elem_of_app HPp; cbn.
      * specialize (Hcomplete P p HP HPp). set_solver.
      * rewrite HD in HPp. injection HPp as <-. set_solver.
    + exists st'. split; [done|]. split; [by rewrite Hs', <-app_assoc|].
      split; [done|]. intros _. destruct l2 as [|x l2].
      * by rewrite (Hnil eq_refl).
      * by apply Hflag.
  - by rewrite Hsched.
  - done.
  - intros t Ht. destruct (has_dependency_cb t) as [[|]|e] eqn:Hcb; [by right|left..].
    all: destruct (Hprec (length l1) D d t) as (j & P & p & Hj & HP & HPp & Hprov);
      [by rewrite list_lookup_middle | done | done | by rewrite Hcb |].
    all: rewrite lookup_app_l in HP by done.
    all: apply (Hcomplete P p); [|done..].
    all: rewrite Hsched; by eapply list_elem_of_lookup_2.
Qed.

Lemma valid_order_Command_entries l : valid_order l → Command_entries h l = l.
Proof. intros (_ & Hcmd & _). by apply Command_entries_all. Qed.

(** A valid order is returned as it is. *)
Lemma order_commands_valid l :
  valid_order l → order_commands order h has_dependency_cb l = Some (Return l).
Proof.
  intros Hvalid. unfold order_commands, order_commands_fuel.
  rewrite (valid_order_Command_entries l Hvalid).
  cbn [while_loop initial_state something_changed].
  destruct (scan_valid_suffix l [] (clear_changed initial_state))
    as (st1 & Hscan & Hsched & Hnil & Hflag); [done | done | | ].
  { intros P p HP. by apply elem_of_nil in HP. }
  rewrite Hscan. cbn [app] in Hsched.
  assert (loop (length l) l st1 = Some (Return (clear_changed st1))
          ∨ loop (length l) l st1 = Some (Return st1)) as Hloop.
  { destruct l as [|c l].
    - right. rewrite (Hnil eq_refl). done.
    - left. cbn [length while_loop]. rewrite (Hflag ltac:(done)).
      rewrite scan_all_scheduled by (cbn; by rewrite Hsched).
      destruct (length l); done. }
  assert (finish h l (build_commands_by_id l) l = Return l) as Hfinish.
  { rewrite finish_scheduled by done. by rewrite decide_True. }
  destruct Hloop as [-> | ->]; cbn [scheduled_cmdids clear_changed];
    by rewrite Hsched, Hfinish.
Qed.

(** *** What a pass collects and schedules *)

Lemma visit_spec_complete st c st' :
  visit_spec h has_dependency_cb st c st' → have_complete st → have_complete st'.
Proof.
  intros [|o Hnew Ho _] Hcomplete; [done|].
  intros P p [HP| ->%list_elem_of_singleton]%elem_of_app HPp; cbn.
  - specialize (Hcomplete P p HP HPp). set_solver.
  - rewrite Ho in HPp. injection HPp as <-. set_solver.
Qed.

Lemma scan_complete l : ∀ st st',
  scan1 l st = Return st' → have_complete st → have_complete st'.
Proof.
  induction l as [|c l IH]; intros st st'; cbn [scan].
  - by intros [= <-].
  - intros (st1 & Hv%visit_Return & Hrest)%bind_Return Hcomplete.
    eapply IH; [done|]. by eapply visit_spec_complete.
Qed.

Lemma loop_complete cs fuel : ∀ st st',
  loop fuel cs st = Some (Return st') → have_complete st → have_complete st'.
Proof.
  induction fuel as [|fuel IH]; intros st st'; cbn [while_loop];
    destruct (something_changed st); try discriminate; try by intros [= <-].
  destruct (scan1 cs (clear_changed st)) as [st1|e] eqn:Hscan; [|discriminate].
  intros Hloop Hcomplete. apply (IH st1 st' Hloop).
  by apply (scan_complete cs (clear_changed st)).
Qed.

(** A visit only adds: to the collected tags and to the schedule. *)
Lemma visit_spec_grows st c st' :
  visit_spec h has_dependency_cb st c st' →
  have_requirements st ⊆ have_requirements st'
  ∧ ∀ x, x ∈ scheduled_cmdids st → x ∈ scheduled_cmdids st'.
Proof.
  intros [|o _ _ _]; [done|]. cbn. split; [set_solver|].
  intros x Hx. apply elem_of_app. by left.
Qed.

Lemma scan_grows l : ∀ st st',
  scan1 l st = Return st' →
  have_requirements st ⊆ have_requirements st'
  ∧ ∀ x, x ∈ scheduled_cmdids st → x ∈ scheduled_cmdids st'.
Proof.
  induction l as [|c l IH]; intros st st'; cbn [scan].
  - by intros [= <-].
  - intros (st1 & Hv%visit_Return%visit_spec_grows & Hrest%IH)%bind_Return.
    destruct Hv as [Hh1 Hs1], Hrest as [Hh2 Hs2]. clear IH. split; [set_solver | auto].
Qed.

(** A command of the list whose requirements are met when the pass begins
    is scheduled when the pass ends. *)
Lemma scan_schedules_met l : ∀ st st' c o,
  scan1 l st = Return st' → c ∈ l → h c = OCommand o →
  (∀ t, t ∈ _requires o → met (have_requirements st) t) →
  c ∈ scheduled_cmdids st'.
Proof.
  induction l as [|x l IH]; intros st st' c o; cbn [scan].
  - intros _ Hc. by apply elem_of_nil in Hc.
  - intros (st1 & Hv & Hrest)%bind_Return Hc Ho Hmet.
    pose proof (visit_spec_grows _ _ _ (visit_Return _ _ _ _ _ _ Hv)) as [Hh1 Hs1].
    apply elem_of_cons in Hc as [->|Hc].
    + apply (scan_grows l st1 st' Hrest).
      destruct (decide (x ∈ scheduled_cmdids st)) as [Hin|Hnew]; [auto|].
      rewrite (visit_met st x o Hnew Ho Hmet) in Hv. injection Hv as <-. cbn.
      apply elem_of_app. right. by left.
    + apply (IH st1 st' c o Hrest Hc Ho).
      intros t Ht. destruct (Hmet t Ht) as [Hin|Hyes]; [left | by right].
      clear IH. set_solver.
Qed.

(** *** The state in which the loop is left *)

Lemma progress_length st st' :
  progress st st' → (length (scheduled_cmdids st) ≤ length (scheduled_cmdids st'))%nat.
Proof. intros [->|[_ Hlt]]; lia. Qed.

Lemma scan_progress l : ∀ st st', scan1 l st = Return st' → progress st st'.
Proof.
  induction l as [|c l IH]; intros st st'; cbn [scan].
  - intros [= <-]. by left.
  - intros (st1 & Hv%visit_Return%visit_spec_progress & Hrest%IH)%bind_Return.
    by eapply progress_trans.
Qed.

(** A pass that changes nothing is made of visits that change nothing. *)
Lemma scan_unchanged l : ∀ st,
  scan1 l st = Return st → ∀ c, c ∈ l → visit1 st c = Return st.
Proof.
  induction l as [|x l IH]; intros st; cbn [scan].
  - intros _ c Hc. by apply elem_of_nil in Hc.
  - intros (st1 & Hv & Hrest)%bind_Return.
    assert (st1 = st) as ->.
    { pose proof (visit_spec_progress _ _ _ _ _
        (visit_Return _ _ _ _ _ _ Hv)) as [->|[_ Hlt]]; [done|].
      apply scan_progress, progress_length in Hrest. lia. }
    intros c [->|Hc]%elem_of_cons; [done | by apply IH].
Qed.

Lemma loop_fixpoint cs fuel : ∀ st st',
  loop fuel cs st = Some (Return st') → something_changed st = true →
  scan1 cs st' = Return st'.
Proof.
  induction fuel as [|fuel IH]; intros st st' Hloop Hflag;
    cbn [while_loop] in Hloop; rewrite Hflag in Hloop; [discriminate|].
  destruct (scan1 cs (clear_changed st)) as [st1|e] eqn:Hscan; [|discriminate].
  destruct (something_changed st1) eqn:Hflag1; [by eapply IH|].
  assert (st' = st1) as ->.
  { destruct fuel; cbn [while_loop] in Hloop; rewrite Hflag1 in Hloop; congruence. }
  destruct (scan_progress _ _ _ Hscan) as [->|[Hyes _]]; [done | congruence].
Qed.

(** A visit that leaves a command unscheduled has found a requirement that
    is not collected and for which the callback answers [False]. *)
Lemma visit_unchanged st c o :
  visit1 st c = Return st → c ∉ scheduled_cmdids st → h c = OCommand o →
  ∃ t, t ∈ _requires o ∧ (t ∉ have_requirements st)
       ∧ has_dependency_cb t = Return false.
Proof.
  intros Hv Hnew Ho. unfold visit, getattr in Hv.
  rewrite decide_False, Ho in Hv by done. cbn in Hv.
  destruct (check _ _) as [[|]|e] eqn:Hok; cbn in Hv; [| |discriminate].
  - injection Hv as Hv. apply (f_equal scheduled_cmdids) in Hv. cbn in Hv.
    apply (f_equal length) in Hv. rewrite length_app in Hv. cbn in Hv. lia.
  - apply can_schedule_false in Hok as (t & Ht & Hout & Hno).
    exists t. split; [|done]. apply elem_of_elements. by rewrite <-(enum_perm order c).
Qed.

(** When the loop is left, every command of a valid order made of commands
    of the input is scheduled. *)
Lemma loop_schedules_valid cs fuel l st' :
  loop fuel cs initial_state = Some (Return st') →
  valid_order l → (∀ c, c ∈ l → c ∈ cs) →
  ∀ c, c ∈ l → c ∈ scheduled_cmdids st'.
Proof.
  intros Hloop (Hnd & Hcmd & Hprec) Hincl.
  pose proof (loop_fixpoint cs fuel _ _ Hloop eq_refl) as Hfix.
  assert (have_complete st') as Hcomplete.
  { apply (loop_complete cs fuel _ _ Hloop). intros P p HP. by apply elem_of_nil in HP. }
  assert (∀ i D, l !! i = Some D → D ∈ scheduled_cmdids st') as Hall.
  { intros i. induction (lt_wf i) as [i _ IH]. intros D Hi.
    destruct (decide (D ∈ scheduled_cmdids st')) as [|Hnew]; [done|exfalso].
    assert (D ∈ l) as HDl by by eapply list_elem_of_lookup_2.
    pose proof (Hcmd D HDl) as HDc. unfold is_Command in HDc.
    destruct (h D) as [|d|cls] eqn:HD; try discriminate.
    destruct (visit_unchanged st' D d) as (t & Ht & Hout & Hno);
      [apply (scan_unchanged cs st' Hfix), Hincl, HDl | done | done |].
    destruct (Hprec i D d t Hi HD Ht) as (j & P & p & Hj & HP & HPp & Hprov);
      [by rewrite Hno|].
    apply Hout, (Hcomplete P p); [by eapply IH | done..]. }
  intros c [i Hi]%list_elem_of_lookup. by eapply Hall.
Qed.

End scheduler_completeness.

Lemma order_commands_Return_valid order h cb commands out :
  order_commands order h cb commands = Some (Return out) → valid_order h cb out.
Proof.
  intros (st & Hinv & -> & Hsame)%order_commands_fuel_Return.
  split; [apply (inv_nodup _ _ _ _ Hinv)|]. split.
  - intros c Hc%Hsame. by eapply Command_entries_is_Command.
  - apply (inv_prec _ _ _ _ Hinv).
Qed.

Lemma valid_order_scenario : valid_order Scenario.store always_false [1; 2].
Proof.
  apply (order_commands_Return_valid elements_order _ _ [2; 1]).
  vm_compute. reflexivity.
Qed.

(** X1.  The [while] loop makes at most one pass more than there are
    entries of class [Command]: [order_commands] comes to an end, and a
    larger bound on the number of passes gives the same result. *)
Theorem passes_bounded_by_entries order h cb commands :
  is_Some (order_commands order h cb commands)
  ∧ ∀ fuel, (length (Command_entries h commands) < fuel)%nat →
      order_commands_fuel order h cb fuel commands
      = order_commands order h cb commands.
Proof.
  split; [apply order_commands_total|].
  intros fuel Hfuel. by apply order_commands_fuel_enough.
Qed.

(** X2.  With a callback that answers every query, the result does not
    depend on the order in which Python enumerates the sets [_requires]. *)
Theorem result_independent_of_set_order order order' h cb commands :
  always_answers cb →
  order_commands order h cb commands = order_commands order' h cb commands.
Proof. intros Hcb. by apply order_commands_any_order. Qed.

Lemma result_independent_of_set_order_witness :
  order_commands elements_order Cycle.store always_false [3; 2; 1]
  = order_commands reverse_order Cycle.store always_false [3; 2; 1].
Proof.
  apply (result_independent_of_set_order elements_order reverse_order
           Cycle.store always_false [3; 2; 1]).
  intros t. exists false. reflexivity.
Defined.

(** X3.  A command of the input whose requirements are all answered [True]
    by the callback, a command without requirements among them, is scheduled
    in the first pass. *)
Theorem first_pass_schedules_answered order h cb commands st' c o :
  scan order h cb commands (clear_changed initial_state) = Return st' →
  c ∈ commands → h c = OCommand o →
  (∀ t, t ∈ _requires o → cb t = Return true) →
  c ∈ scheduled_cmdids st'.
Proof.
  intros Hscan Hc Ho Hyes.
  apply (scan_schedules_met order h cb commands _ st' c o Hscan Hc Ho).
  intros t Ht. right. by apply Hyes.
Qed.

Lemma first_pass_schedules_answered_witness :
  1 ∈ scheduled_cmdids
        {| have_requirements := ∅ ∪ _provides Scenario.A;
           scheduled_cmdids := [1];
           something_changed := true |}.
Proof.
  apply (first_pass_schedules_answered elements_order Scenario.store always_false
           [2; 1] _ 1 Scenario.A).
  - vm_compute. reflexivity.
  - apply (bool_decide_unpack _). vm_compute. reflexivity.
  - reflexivity.
  - intros t Ht. apply not_elem_of_empty in Ht. destruct Ht.
Defined.

(** X4.  A list of distinct commands that is in a valid order already, each
    requirement answered [True] by the callback or provided by a command
    earlier in the list, is returned as it is: one pass schedules it. *)
Theorem valid_order_is_returned order h cb l :
  valid_order h cb l → order_commands order h cb l = Some (Return l).
Proof. apply order_commands_valid. Qed.

Lemma valid_order_is_returned_witness :
  order_commands elements_order Scenario.store always_false [1; 2]
  = Some (Return [1; 2]).
Proof.
  apply (valid_order_is_returned elements_order Scenario.store always_false [1; 2]).
  apply valid_order_scenario.
Defined.

(** X5.  [order_commands] is idempotent: a returned order, given as input
    with the same callback, is returned again. *)
Theorem order_commands_idempotent order h cb commands out :
  order_commands order h cb commands = Some (Return out) →
  order_commands order h cb out = Some (Return out).
Proof.
  intros Hout. apply order_commands_valid.
  by apply (order_commands_Return_valid order h cb commands).
Qed.

Lemma order_commands_idempotent_witness :
  order_commands elements_order Scenario.store always_false [1; 2]
  = Some (Return [1; 2]).
Proof.
  apply (order_commands_idempotent elements_order Scenario.store always_false [2; 1]).
  vm_compute. reflexivity.
Defined.

(** X6.  For a list of distinct commands and a callback that answers every
    query, [order_commands] returns exactly when the list can be put in a
    valid order, and raises the [AssertionError] of its last check
    otherwise. *)
Theorem returns_iff_valid_order_exists order h cb commands :
  always_answers cb → NoDup commands →
  (∀ c, c ∈ commands → is_Command h c = true) →
  ((∃ out, order_commands order h cb commands = Some (Return out))
   ↔ ∃ l, l ≡ₚ commands ∧ valid_order h cb l)
  ∧ ((¬ ∃ l, l ≡ₚ commands ∧ valid_order h cb l) →
     order_commands order h cb commands = Some (Raise AssertionError)).
Proof.
  intros Hcb Hnd Hcmd.
  assert ((∃ l, l ≡ₚ commands ∧ valid_order h cb l) →
          ∃ out, order_commands order h cb commands = Some (Return out)) as Hcomplete.
  { intros (l & Hperm & Hvalid).
    unfold order_commands, order_commands_fuel.
    rewrite (Command_entries_all h commands Hcmd).
    destruct (loop_total order h cb commands (S (length commands)) initial_state)
      as [[st'|e] Hloop]; [apply sched_inv_initial | cbn; lia | ..]; rewrite Hloop.
    - destruct (loop_Return order h cb _ _ _ _ Hloop) as [Hinv _];
        [apply sched_inv_initial|].
      rewrite finish_scheduled by apply Hinv.
      rewrite decide_True; [eauto|].
      apply set_eq. intros c. rewrite !elem_of_list_to_set. split.
      + intros Hc. apply (loop_schedules_valid order h cb _ _ l st' Hloop Hvalid).
        * intros x Hx. by rewrite <-Hperm.
        * by rewrite Hperm.
      + apply Hinv.
    - apply loop_Raise in Hloop as (c & o & t & _ & _ & _ & Ht); [|done].
      destruct (Hcb t) as [b Hb]. congruence. }
  assert ((∃ out, order_commands order h cb commands = Some (Return out)) →
          ∃ l, l ≡ₚ commands ∧ valid_order h cb l) as Hsound.
  { intros [out Hout]. exists out. split; [|by eapply order_commands_Return_valid].
    destruct (order_commands_fuel_Return order h cb _ _ _ Hout)
      as (st & Hinv & -> & Hsame).
    rewrite (Command_entries_all h commands Hcmd) in Hsame.
    apply NoDup_Permutation; [apply Hinv | done..]. }
  split; [by split|].
  intros Hnone.
  destruct (order_commands_total order h cb commands) as [[out|e] Hr].
  - destruct Hnone. apply Hsound. eauto.
  - rewrite Hr. apply order_commands_Raise in Hr as [->|(c & o & t & _ & _ & _ & Ht)];
      [done|]. destruct (Hcb t) as [b Hb]. congruence.
Qed.

Lemma returns_iff_valid_order_exists_witness :
  (∃ out, order_commands elements_order Scenario.store always_false [2; 1]
          = Some (Return out))
  ↔ ∃ l, l ≡ₚ [2; 1] ∧ valid_order Scenario.store always_false l.
Proof.
  apply (returns_iff_valid_order_exists elements_order Scenario.store always_false
           [2; 1]).
  - intros t. exists false. reflexivity.
  - apply (bool_decide_unpack _). vm_compute. reflexivity.
  - intros c Hc. apply list_elem_of_In in Hc. simpl in Hc.
    destruct Hc as [<-|[<-|[]]]; reflexivity.
Defined.

(** X7.  When [order_commands] raises the [AssertionError] of its last
    check, the callback has answered [False] for a requirement of a command
    of the input. *)
Theorem AssertionError_means_a_denied_requirement order h cb commands :
  order_commands order h cb commands = Some (Raise AssertionError) →
  (∀ t, cb t ≠ Raise AssertionError) →
  ∃ c o t, c ∈ commands ∧ h c = OCommand o ∧ t ∈ _requires o
           ∧ cb t = Return false.
Proof.
  unfold order_commands, order_commands_fuel. intros Hr Hcb.
  destruct (while_loop _ _ _ _ _ initial_state) as [[st'|e]|] eqn:Hloop;
    try discriminate.
  - destruct (loop_Return order h cb _ _ _ _ Hloop) as [Hinv _];
      [apply sched_inv_initial|].
    rewrite finish_scheduled in Hr by apply Hinv.
    case_decide as Hset; [discriminate|].
    assert (∃ c, c ∈ Command_entries h commands ∧ c ∉ scheduled_cmdids st')
      as (c & Hc & Hnew).
    { destruct (decide (Forall (λ c, c ∈ scheduled_cmdids st')
                          (Command_entries h commands))) as [Hall|Hnot].
      - destruct Hset. apply set_eq. intros c.
        rewrite !elem_of_list_to_set. split; [|apply Hinv].
        rewrite list.Forall_forall in Hall. apply Hall.
      - apply not_Forall_Exists in Hnot; [|apply _].
        by apply list.Exists_exists in Hnot. }
    pose proof (Command_entries_is_Command h commands c Hc) as Hcc.
    unfold is_Command in Hcc. destruct (h c) as [|o|cls] eqn:Ho; try discriminate.
    destruct (visit_unchanged order h cb st' c o) as (t & Ht & _ & Hno);
      [|done..|].
    { apply (scan_unchanged order h cb (Command_entries h commands)); [|done].
      by apply (loop_fixpoint order h cb _ _ initial_state st' Hloop). }
    exists c, o, t. split; [|done].
    by apply list_elem_of_filter in Hc as [_ Hc].
  - injection Hr as ->.
    apply loop_Raise in Hloop as (c & o & t & _ & _ & _ & Ht);
      [|apply Command_entries_is_Command]. by destruct (Hcb t).
Qed.

Lemma AssertionError_means_a_denied_requirement_witness :
  ∃ c o t, c ∈ [1; 2] ∧ Cycle.store c = OCommand o ∧ t ∈ _requires o
           ∧ always_false t = Return false.
Proof.
  apply (AssertionError_means_a_denied_requirement elements_order Cycle.store
           always_false [1; 2]).
  - vm_compute. reflexivity.
  - intros t. discriminate.
Defined.

(** ** More about the oracle *)

Lemma split_cons sep s : ∃ x xs, split sep s = x :: xs.
Proof.
  destruct s as [|a s]; cbn [split]; [eauto|].
  case_decide; [eauto|]. destruct (split sep s); eauto.
Qed.

(** A separator at the end gives an empty last piece. *)
Lemma split_sep_at_end sep p :
  split sep (p ++ String sep "") = (split sep p ++ [""])%list.
Proof.
  induction p as [|a p IH].
  - change (split sep (String sep "") = [""; ""]). cbn [split].
    by rewrite decide_True.
  - change (split sep (String a (p ++ String sep ""))
            = (split sep (String a p) ++ [""])%list).
    cbn [split]. case_decide; [by rewrite IH|].
    rewrite IH. destruct (split_cons sep p) as (x & xs & ->). done.
Qed.

Lemma read_aptly_lines_elem lines : ∀ list_ name,
  name ∈ read_aptly_lines lines list_
  ↔ name ∈ list_ ∨ ∃ line, line ∈ lines ∧ name = strip line.
Proof.
  induction lines as [|l lines IH]; intros list_ name; cbn [read_aptly_lines].
  - split; [by left|]. intros [?|(line & Hl%elem_of_nil & _)]; done.
  - rewrite IH, elem_of_union, elem_of_singleton. split.
    + intros [[->|?]|(line & Hl & ->)]; [right|by left|right].
      * exists l. split; [by left | done].
      * exists line. split; [by right | done].
    + intros [?|(line & [->|Hl]%elem_of_cons & ->)]; [left; by right|left; by left|].
      right. by exists line.
Qed.

Lemma oracle_mirror st name :
  oracle st ("mirror", name) = Return (bool_decide (name ∈ mirrors st)).
Proof. unfold oracle, has_dependency. by rewrite decide_True. Qed.

Lemma oracle_snapshot st name :
  oracle st ("snapshot", name) = Return (bool_decide (name ∈ snapshots st)).
Proof.
  unfold oracle, has_dependency. rewrite decide_False by done. by rewrite decide_True.
Qed.

Lemma Return_bool_decide_true (P : Prop) `{Decision P} :
  Return (bool_decide P) = Return true ↔ P.
Proof.
  split.
  - intros [= Hb]. by apply bool_decide_eq_true in Hb.
  - intros HP. by rewrite bool_decide_eq_true_2.
Qed.

(** X8.  After [read_mirror] the oracle knows as mirrors the lines of the
    listing, stripped, and nothing else; what it knew before is forgotten,
    and the keys and snapshots are as they were.  When the listing cannot be
    read, it knows no mirror at all.  [read_snapshot] does the same for the
    snapshots. *)
Theorem read_mirror_registers_the_stripped_lines st :
  (∀ data,
     (read_mirror (Return data) st).1 = Return ()
     ∧ (∀ name, oracle (read_mirror (Return data) st).2 ("mirror", name) = Return true
                ↔ ∃ line, line ∈ split newline data ∧ name = strip line)
     ∧ gpg_keys (read_mirror (Return data) st).2 = gpg_keys st
     ∧ snapshots (read_mirror (Return data) st).2 = snapshots st)
  ∧ (∀ data,
       (read_snapshot (Return data) st).1 = Return ()
       ∧ (∀ name, oracle (read_snapshot (Return data) st).2 ("snapshot", name)
                  = Return true
                  ↔ ∃ line, line ∈ split newline data ∧ name = strip line)
       ∧ gpg_keys (read_snapshot (Return data) st).2 = gpg_keys st
       ∧ mirrors (read_snapshot (Return data) st).2 = mirrors st)
  ∧ (∀ e name,
       (read_mirror (Raise e) st).1 = Raise e
       ∧ oracle (read_mirror (Raise e) st).2 ("mirror", name) = Return false
       ∧ (read_snapshot (Raise e) st).1 = Raise e
       ∧ oracle (read_snapshot (Raise e) st).2 ("snapshot", name) = Return false).
Proof.
  split; [|split].
  - intros data. cbn. split; [done|]. split; [|done]. intros name.
    rewrite oracle_mirror, Return_bool_decide_true. cbn.
    rewrite read_aptly_lines_elem. split; [|by right].
    intros [Hn|?]; [by apply not_elem_of_empty in Hn | done].
  - intros data. cbn. split; [done|]. split; [|done]. intros name.
    rewrite oracle_snapshot, Return_bool_decide_true. cbn.
    rewrite read_aptly_lines_elem. split; [|by right].
    intros [Hn|?]; [by apply not_elem_of_empty in Hn | done].
  - intros e name. cbn. rewrite oracle_mirror, oracle_snapshot. cbn.
    rewrite !bool_decide_eq_false_2 by apply not_elem_of_empty. done.
Qed.

(** X9.  A listing that is empty or ends with a newline, as the output of
    [aptly ... list -raw] does, makes the empty name a known mirror (and a
    known snapshot): its last piece is the empty line. *)
Theorem empty_name_is_registered st data :
  data = "" ∨ (∃ p, data = p ++ String newline "") →
  oracle (read_mirror (Return data) st).2 ("mirror", "") = Return true
  ∧ oracle (read_snapshot (Return data) st).2 ("snapshot", "") = Return true.
Proof.
  intros Hdata.
  assert ("" ∈ split newline data) as Hin.
  { destruct Hdata as [->|[p ->]]; [by left|].
    rewrite split_sep_at_end. apply elem_of_app. right. by left. }
  rewrite oracle_mirror, oracle_snapshot, !Return_bool_decide_true. cbn.
  rewrite !read_aptly_lines_elem. split; right; by exists "".
Qed.

Lemma empty_name_is_registered_witness :
  oracle (read_mirror (Return ("m1" ++ String newline "")) SystemStateReader__init__).2
    ("mirror", "") = Return true
  ∧ oracle (read_snapshot (Return ("m1" ++ String newline ""))
              SystemStateReader__init__).2 ("snapshot", "") = Return true.
Proof.
  apply (empty_name_is_registered SystemStateReader__init__
           ("m1" ++ String newline "")).
  right. exists "m1". reflexivity.
Defined.

Lemma read_gpg_lines_elem lines : ∀ st st' name,
  read_gpg_lines lines st = (Return (), st') →
  (name ∈ gpg_keys st'
   ↔ name ∈ gpg_keys st ∨ ∃ line, line ∈ lines ∧ registered_by line name)
  ∧ mirrors st' = mirrors st ∧ snapshots st' = snapshots st.
Proof.
  induction lines as [|l lines IH]; intros st st' name; cbn [read_gpg_lines].
  - intros [= <-]. split; [|done]. split; [by left|].
    intros [?|(line & Hl%elem_of_nil & _)]; done.
  - destruct (split colon l !! 0) as [field0|] eqn:H0; [|discriminate].
    case_decide as Hpub.
    + destruct (split colon l !! 4) as [key|] eqn:H4; [|discriminate].
      intros [Hrest Hother]%(IH _ _ name). cbn in Hrest, Hother.
      split; [|done]. rewrite Hrest, !elem_of_union, !elem_of_singleton. split.
      * intros [[->|[->|?]]|(line & Hl & Hreg)].
        -- right. exists l. split; [by left|]. subst field0. split; [done|]. eauto.
        -- right. exists l. split; [by left|]. subst field0. split; [done|]. eauto.
        -- by left.
        -- right. exists line. split; [by right | done].
      * intros [?|(line & [->|Hl]%elem_of_cons & Hreg)].
        -- left. right. by right.
        -- destruct Hreg as (_ & key' & Hk & Hname). rewrite H4 in Hk.
           injection Hk as <-. left. destruct Hname as [->| ->]; auto.
        -- right. by exists line.
    + intros [Hrest Hother]%(IH _ _ name). split; [|done]. rewrite Hrest. split.
      * intros [?|(line & Hl & Hreg)]; [by left|].
        right. exists line. split; [by right | done].
      * intros [?|(line & [->|Hl]%elem_of_cons & Hreg)]; [by left| |].
        -- destruct Hreg as [Hreg _]. rewrite H0 in Hreg. by injection Hreg.
        -- right. by exists line.
Qed.

(** X10.  After [read_gpg] the oracle knows as keys the fifth field of each
    [pub] line and that field without its first 8 characters, and nothing
    else: other lines register nothing, the keys known before are forgotten,
    the mirrors and snapshots are as they were. *)
Theorem read_gpg_registers_nothing_else data st st' :
  read_gpg (Return data) st = (Return (), st') →
  (∀ name, oracle st' ("gpg_key", name) = Return true
           ↔ ∃ line, line ∈ split newline data ∧ registered_by line name)
  ∧ mirrors st' = mirrors st ∧ snapshots st' = snapshots st.
Proof.
  unfold read_gpg. intros Hread. split.
  - intros name. rewrite oracle_gpg_key, Return_bool_decide_true.
    destruct (read_gpg_lines_elem _ _ _ name Hread) as [-> _]. cbn.
    split; [|by right]. intros [Hn|?]; [by apply not_elem_of_empty in Hn | done].
  - by destruct (read_gpg_lines_elem _ _ _ "" Hread) as [_ ?].
Qed.

Lemma read_gpg_registers_nothing_else_witness :
  (∀ name,
     oracle (read_gpg (Return (Keyring.listing Keyring.line16))
               SystemStateReader__init__).2 ("gpg_key", name) = Return true
     ↔ ∃ line, line ∈ split newline (Keyring.listing Keyring.line16)
               ∧ registered_by line name)
  ∧ mirrors (read_gpg (Return (Keyring.listing Keyring.line16))
               SystemStateReader__init__).2 = mirrors SystemStateReader__init__
  ∧ snapshots (read_gpg (Return (Keyring.listing Keyring.line16))
                 SystemStateReader__init__).2 = snapshots SystemStateReader__init__.
Proof.
  apply (read_gpg_registers_nothing_else (Keyring.listing Keyring.line16)
           SystemStateReader__init__).
  vm_compute. reflexivity.
Defined.

(** X11.  A [pub] line with fewer than five fields makes [read_gpg] raise
    [IndexError], wherever the line stands in the listing. *)
Theorem read_gpg_short_pub_line data st line :
  line ∈ split newline data →
  split colon line !! 0 = Some "pub" →
  (length (split colon line) < 5)%nat →
  (read_gpg (Return data) st).1 = Raise (IndexError "list index out of range").
Proof.
  unfold read_gpg. intros Hline H0 Hshort.
  generalize {| gpg_keys := ∅; mirrors := mirrors st; snapshots := snapshots st |}.
  induction (split newline data) as [|l lines IH]; intros st0.
  { by apply elem_of_nil in Hline. }
  cbn [read_gpg_lines]. apply elem_of_cons in Hline as [<-|Hline].
  - rewrite H0, decide_True by done.
    by rewrite (lookup_ge_None_2 (split colon line) 4) by lia.
  - destruct (split colon l !! 0); [|done].
    case_decide; [|by apply IH]. destruct (split colon l !! 4); [by apply IH | done].
Qed.

Lemma read_gpg_short_pub_line_witness :
  (read_gpg (Return "pub:u:4096") SystemStateReader__init__).1
  = Raise (IndexError "list index out of range").
Proof.
  apply (read_gpg_short_pub_line "pub:u:4096" SystemStateReader__init__ "pub:u:4096").
  - apply (bool_decide_unpack _). vm_compute. reflexivity.
  - vm_compute. reflexivity.
  - vm_compute. lia.
Defined.

Lemma read_gpg_lines_frame lines : ∀ st st2,
  gpg_keys st2 = gpg_keys st →
  read_gpg_lines lines st2
  = ((read_gpg_lines lines st).1,
     {| gpg_keys := gpg_keys (read_gpg_lines lines st).2;
        mirrors := mirrors st2; snapshots := snapshots st2 |}).
Proof.
  induction lines as [|l lines IH]; intros st st2 Hkeys; cbn [read_gpg_lines].
  - destruct st2. cbn in *. by subst.
  - destruct (split colon l !! 0) as [field0|]; [|destruct st2; cbn in *; by subst].
    case_decide; [|by apply IH].
    destruct (split colon l !! 4) as [key|]; [|destruct st2; cbn in *; by subst].
    rewrite (IH (add_gpg_key (slice_from 8 key) (add_gpg_key key st))); [done|].
    cbn. by rewrite Hkeys.
Qed.

(** X12.  A [read] that succeeds is a refresh: the state it leaves is made
    of the three listings alone, whatever the oracle held before.  When the
    listing of the keyring fails, [read] raises at once, and the oracle is
    left without keys and with the mirrors and snapshots it had. *)
Theorem read_is_a_refresh process :
  (∀ st1 st2 st',
     read process st1 = (Return (), st') → read process st2 = (Return (), st'))
  ∧ (∀ st, (process gpg_list_keys).1 ≠ 0%Z →
       read process st
       = (Raise (CalledProcessError (process gpg_list_keys).1 gpg_list_keys),
          {| gpg_keys := ∅; mirrors := mirrors st; snapshots := snapshots st |})).
Proof.
  split.
  - intros st1 st2 st'. unfold read, read_gpg, read_mirror, read_snapshot,
      read_aptly_list.
    destruct (call_output gpg_list_keys _ _) as [data|e]; [|discriminate].
    rewrite (read_gpg_lines_frame _
      {| gpg_keys := ∅; mirrors := mirrors st1; snapshots := snapshots st1 |}
      {| gpg_keys := ∅; mirrors := mirrors st2; snapshots := snapshots st2 |})
      by done.
    destruct (read_gpg_lines _ _) as [[[]|e] st1']; cbn; [|discriminate].
    destruct (call_output (aptly_list "mirror") _ _) as [mdata|e]; [|discriminate].
    destruct (call_output (aptly_list "snapshot") _ _) as [sdata|e]; [|discriminate].
    cbn. by intros [= <-].
  - intros st Hrc. unfold read, read_gpg, call_output. by rewrite decide_True.
Qed.

Lemma read_is_a_refresh_witness :
  read (λ _, (1%Z, "")) SystemStateReader__init__
  = (Raise (CalledProcessError 1 gpg_list_keys),
     {| gpg_keys := ∅; mirrors := ∅; snapshots := ∅ |}).
Proof.
  destruct (read_is_a_refresh (λ _, (1%Z, ""))) as [_ Hfail].
  apply (Hfail SystemStateReader__init__). discriminate.
Defined.

(** ** The batch functions *)

Lemma M_bind_Done {A B} (m : M A) (k : A → M B) s b s' :
  (m ≫= k) s = (Done b, s') →
  ∃ a s1, m s = (Done a, s1) ∧ k a s1 = (Done b, s').
Proof.
  unfold mbind, M_bind. destruct (m s) as [[a|f|] s1]; [eauto | discriminate..].
Qed.

Lemma on_heap_provide s r c type_ identifier :
  objects (the_world s) r = OCommand c → type_ ∈ provided_kinds →
  on_heap (provide r type_ identifier) s
  = (Done (),
     {| the_world :=
          {| objects := <[ r := OCommand (add_provide (type_, identifier) c) ]>
                          (objects (the_world s));
             calls := calls (the_world s) |};
        next_id := next_id s |}).
Proof. intros Hr Hk. unfold on_heap, provide. by rewrite Hr, decide_True. Qed.

Lemma on_heap_require s r c type_ identifier :
  objects (the_world s) r = OCommand c → type_ ∈ required_kinds →
  on_heap (require r type_ identifier) s
  = (Done (),
     {| the_world :=
          {| objects := <[ r := OCommand (add_require (type_, identifier) c) ]>
                          (objects (the_world s));
             calls := calls (the_world s) |};
        next_id := next_id s |}).
Proof. intros Hr Hk. unfold on_heap, require. by rewrite Hr, decide_True. Qed.

Lemma snapshot_is_provided : "snapshot" ∈ provided_kinds.
Proof. by left. Qed.

Lemma snapshot_is_required : "snapshot" ∈ required_kinds.
Proof. by left. Qed.

Lemma cmd_snapshot_create_Done state snapshot_name snapshot_config s r s' :
  cmd_snapshot_create state snapshot_name snapshot_config s = (Done r, s') →
  snapshot_created state snapshot_name snapshot_config s r s'.
Proof.
  unfold cmd_snapshot_create. case_decide as Hknown.
  { intros [= <- <-]. by constructor. }
  destruct (snapshot_mirror snapshot_config) as [mirror|] eqn:Hm;
    [|destruct (snapshot_repo snapshot_config) as [repo|] eqn:Hr;
      [|destruct (snapshot_filter snapshot_config) as [[[source|] [query|]]|] eqn:Hf;
        try discriminate]].
  - unfold mbind, M_bind, new_Command, on_heap, provide. cbn.
    rewrite fn_lookup_insert, decide_True by apply snapshot_is_provided.
    cbn. intros [= <- <-].
    eapply snapshot_new;
      [done | | cbn; by rewrite fn_lookup_insert
       | cbn; intros r Hr'; by rewrite !fn_lookup_insert_ne | done | done].
    split; [apply (right_id_L ∅ (∪))|]. split; [done|]. left. eauto.
  - unfold mbind, M_bind, new_Command, on_heap, provide. cbn.
    rewrite fn_lookup_insert, decide_True by apply snapshot_is_provided.
    cbn. intros [= <- <-].
    eapply snapshot_new;
      [done | | cbn; by rewrite fn_lookup_insert
       | cbn; intros r Hr'; by rewrite !fn_lookup_insert_ne | done | done].
    split; [apply (right_id_L ∅ (∪))|]. split; [done|]. right. left. eauto.
  - unfold mbind, M_bind, new_Command, on_heap, provide, require. cbn.
    rewrite fn_lookup_insert, decide_True by apply snapshot_is_provided.
    cbn. rewrite fn_lookup_insert, decide_True by apply snapshot_is_required.
    cbn. intros [= <- <-].
    eapply snapshot_new;
      [done | | cbn; by rewrite fn_lookup_insert
       | cbn; intros r Hr'; by rewrite !fn_lookup_insert_ne | done | done].
    split; [apply (right_id_L ∅ (∪))|]. split; [done|]. right. right.
    split; [done|]. split; [done|]. eexists _, source, query.
    repeat split; try done. apply (right_id_L ∅ (∪)).
Qed.

Lemma cmd_snapshot_create_Failed state snapshot_name snapshot_config s f s' :
  cmd_snapshot_create state snapshot_name snapshot_config s = (Failed f, s') →
  s' = s.
Proof.
  unfold cmd_snapshot_create. case_decide as Hknown; [discriminate|].
  destruct (snapshot_mirror snapshot_config) as [mirror|];
    [|destruct (snapshot_repo snapshot_config) as [repo|];
      [|destruct (snapshot_filter snapshot_config) as [[[source|] [query|]]|]]].
  all: unfold mbind, M_bind, new_Command, on_heap, provide, require, raise; cbn.
  all: try (rewrite fn_lookup_insert, decide_True by apply snapshot_is_provided; cbn).
  all: try (rewrite fn_lookup_insert, decide_True by apply snapshot_is_required; cbn).
  all: try discriminate.
  all: by intros [= _ <-].
Qed.

Lemma cmd_snapshot_create_OutOfPasses state snapshot_name snapshot_config s s' :
  cmd_snapshot_create state snapshot_name snapshot_config s ≠ (OutOfPasses, s').
Proof.
  unfold cmd_snapshot_create. case_decide as Hknown; [discriminate|].
  destruct (snapshot_mirror snapshot_config) as [mirror|];
    [|destruct (snapshot_repo snapshot_config) as [repo|];
      [|destruct (snapshot_filter snapshot_config) as [[[source|] [query|]]|]]].
  all: unfold mbind, M_bind, new_Command, on_heap, provide, require, raise; cbn.
  all: try (rewrite fn_lookup_insert, decide_True by apply snapshot_is_provided; cbn).
  all: try (rewrite fn_lookup_insert, decide_True by apply snapshot_is_required; cbn).
  all: discriminate.
Qed.

Section batch_facts.

Context (state : SystemStateReader).

Local Open Scope list_scope.
Local Open Scope nat_scope.

Lemma made_for_earlier s s1 s' item cmd :
  next_id s ≤ next_id s1 → made_for state s1 s' item cmd → made_for state s s' item cmd.
Proof.
  intros Hle. destruct cmd as [r|]; [|done].
  intros ([Hr1 Hr2] & Hnew & Hc). split; [lia | done].
Qed.

(** The commands made for the items of a configuration are new objects,
    one after the other. *)
Lemma create_all_Done items : ∀ s commands s',
  create_all (cmd_snapshot_create state) items s = (Done commands, s') →
  Forall2 (made_for state s s') items commands
  ∧ NoDup (omap id commands)
  ∧ (∀ r, r ∈ omap id commands → next_id s ≤ r < next_id s')
  ∧ calls (the_world s') = calls (the_world s)
  ∧ next_id s ≤ next_id s'
  ∧ (∀ r, r < next_id s → objects (the_world s') r = objects (the_world s) r).
Proof.
  induction items as [|[name cfg] items IH]; intros s commands s'; cbn [create_all].
  - intros [= <- <-]. cbn. split; [constructor|]. split; [constructor|].
    split; [|done]. intros r Hr. by apply elem_of_nil in Hr.
  - intros (cmd & s1 & Hcmd%cmd_snapshot_create_Done & Hrest)%M_bind_Done.
    apply M_bind_Done in Hrest as (cmds & s2 & Hrest & Hret).
    injection Hret as <- <-.
    destruct (IH _ _ _ Hrest) as (Hmade & Hnd & Hrange & Hcalls & Hnext & Hframe).
    destruct Hcmd as [Hknown|c s1 Hnew Hc Hobj Hother Hcalls1 Hnext1].
    + split; [by constructor|]. done.
    + change (omap id (Some (next_id s) :: cmds)) with (next_id s :: omap id cmds).
      split; [|split; [|split; [|split; [|split]]]].
      * constructor.
        -- cbn. split; [lia|]. split; [done|]. exists c. split; [|done].
           rewrite Hframe by lia. done.
        -- eapply list.Forall2_impl; [done|]. intros item cmd. apply made_for_earlier. lia.
      * constructor; [|done]. intros Hin%Hrange. lia.
      * intros r [->|Hin%Hrange]%elem_of_cons; lia.
      * congruence.
      * lia.
      * intros r Hr. rewrite Hframe by lia. apply Hother. lia.
Qed.

Lemma create_all_not_Done items : ∀ s res s',
  create_all (cmd_snapshot_create state) items s = (res, s') →
  calls (the_world s') = calls (the_world s) ∧ res ≠ OutOfPasses.
Proof.
  induction items as [|[name cfg] items IH]; intros s res s'; cbn [create_all].
  - by intros [= <- <-].
  - unfold mbind at 1, M_bind.
    destruct (cmd_snapshot_create state name cfg s) as [[cmd|f|] s1] eqn:Hcmd.
    + unfold mbind, M_bind.
      destruct (create_all _ items s1) as [[cmds|f|] s2] eqn:Hrest;
        destruct (IH _ _ _ Hrest) as [Hcalls Hres]; [|  |done].
      all: intros [= <- <-]; split; [|done]; rewrite Hcalls.
      all: apply cmd_snapshot_create_Done in Hcmd; by destruct Hcmd.
    + apply cmd_snapshot_create_Failed in Hcmd as ->. by intros [= <- <-].
    + by apply cmd_snapshot_create_OutOfPasses in Hcmd.
Qed.

Context (order : iteration_order).
Context (launch : list (list string) → list string → outcome Z).

(** A call of [execute] on a command without result starts its process and
    touches no other object. *)
Lemma execute_fresh self w c :
  objects w self = OCommand c → _finished c = None →
  calls (execute launch self w).2 = calls w ++ [cmd c]
  ∧ (∀ r, r ≠ self → objects (execute launch self w).2 r = objects w r).
Proof.
  intros Hc Hr. unfold execute, check_call. rewrite Hc, Hr.
  destruct (launch (calls w) (cmd c)) as [rc|e]; [case_decide|]; cbn;
    (split; [done|]); try done.
  intros r Hne. by rewrite fn_lookup_insert_ne.
Qed.

Lemma argv_of_command h r c : h r = OCommand c → argv_of h r = cmd c.
Proof. intros Hr. unfold argv_of. by rewrite Hr. Qed.

(** Storing a result in a command leaves its argument vector as it is. *)
Lemma argv_of_set_finished h r v c r' :
  h r = OCommand c →
  argv_of (<[ r := OCommand (set_finished v c) ]> h) r' = argv_of h r'.
Proof.
  intros Hc. unfold argv_of. destruct (decide (r' = r)) as [->|Hne].
  - by rewrite fn_lookup_insert, Hc.
  - by rewrite fn_lookup_insert_ne.
Qed.

Lemma calls_after_cons s s1 r c v cmds i :
  objects (the_world s) r = OCommand c →
  objects (the_world s1) = <[ r := OCommand (set_finished v c) ]> (objects (the_world s)) →
  calls (the_world s1) = calls (the_world s) ++ [cmd c] →
  calls_after s1 cmds i = calls_after s (r :: cmds) (S i).
Proof.
  intros Hc Hobj Hcalls. unfold calls_after. rewrite Hcalls, Hobj, <-app_assoc.
  cbn [take fmap list_fmap app]. rewrite (argv_of_command _ r c Hc).
  do 2 f_equal. apply list_fmap_ext. intros _ r' _. by apply argv_of_set_finished.
Qed.

Lemma succeeded_nothing s cmds s' :
  objects (the_world s') = objects (the_world s) → next_id s' = next_id s →
  succeeded launch s cmds 0 s'.
Proof.
  intros Hobj Hnext. split; [intros i r Hi; lia|]. split; [|done].
  intros r _. by rewrite Hobj.
Qed.

(** From the rest of the list to the list, after a first command that went
    well. *)
Lemma succeeded_cons s s1 r c cmds k s' :
  r ∉ cmds →
  objects (the_world s) r = OCommand c →
  launch (calls (the_world s)) (cmd c) = Return 0%Z →
  objects (the_world s1) = <[ r := OCommand (set_finished 0 c) ]> (objects (the_world s)) →
  calls (the_world s1) = calls (the_world s) ++ [cmd c] →
  next_id s1 = next_id s →
  succeeded launch s1 cmds k s' → succeeded launch s (r :: cmds) (S k) s'.
Proof.
  intros Hr Hc Hl Hobj Hcalls Hnext (Hran & Hother & Hnext').
  assert (r ∉ take k cmds) as Hr'.
  { intros Hin. apply Hr. apply list_elem_of_lookup in Hin as [i Hi].
    apply lookup_take_Some in Hi as [Hi _]. by eapply list_elem_of_lookup_2. }
  split; [|split; [|congruence]].
  - intros [|i] r' Hi Hlook.
    + injection Hlook as <-. unfold calls_after. cbn [take fmap list_fmap].
      rewrite app_nil_r, (argv_of_command _ r c Hc). split; [done|].
      exists c. split; [done|]. rewrite Hother, Hobj by done.
      by rewrite fn_lookup_insert.
    + cbn in Hlook. destruct (Hran i r') as [Hl' (c' & Hc' & Hfin)]; [lia | done |].
      assert (r' ≠ r) as Hne.
      { intros ->. apply Hr. by eapply list_elem_of_lookup_2. }
      rewrite (calls_after_cons s s1 r c 0%Z cmds i Hc Hobj Hcalls) in Hl'.
      rewrite Hobj, (argv_of_set_finished _ r 0%Z c r' Hc) in Hl'.
      split; [done|]. exists c'. split; [|done].
      by rewrite Hobj, fn_lookup_insert_ne in Hc'.
  - intros r' Hnot. cbn [take] in Hnot. apply not_elem_of_cons in Hnot as [Hne Hnot].
    rewrite Hother, Hobj by done. by rewrite fn_lookup_insert_ne.
Qed.

(** The loop over distinct commands without result: what it has done when
    it ends. *)
Lemma execute_all_executed cmds : ∀ s res s',
  NoDup cmds →
  (∀ r, r ∈ cmds → ∃ c, objects (the_world s) r = OCommand c ∧ _finished c = None) →
  execute_all launch cmds s = (res, s') →
  executed launch cmds s res s'.
Proof.
  induction cmds as [|r cmds IH]; intros s res s' Hnd Hfresh; cbn [execute_all].
  - intros [= <- <-]. constructor; [by apply succeeded_nothing|].
    unfold calls_after. cbn. by rewrite app_nil_r.
  - apply list.NoDup_cons in Hnd as [Hr Hnd].
    destruct (Hfresh r) as (c & Hc & Hfin); [by left|].
    unfold mbind, M_bind, on_world, execute, check_call. rewrite Hc, Hfin.
    destruct (launch (calls (the_world s)) (cmd c)) as [rc|e] eqn:Hl;
      [case_decide as Hrc|]; cbn.
    + subst rc. intros Hrest.
      set (s1 := {| the_world := _; next_id := next_id s |}) in Hrest.
      assert (executed launch cmds s1 res s') as Hex.
      { apply IH; [done | | done]. intros r' Hr'. cbn.
        rewrite fn_lookup_insert_ne by (by intros ->). apply Hfresh. by right. }
      destruct Hex as [s' Hran Hcalls|j r' e s' Hj Hran Hfail Hcalls].
      * constructor.
        -- by apply (succeeded_cons s s1 r c).
        -- rewrite Hcalls. by apply (calls_after_cons s s1 r c 0%Z).
      * apply (executed_until _ _ _ (S j) r').
        -- done.
        -- by apply (succeeded_cons s s1 r c).
        -- rewrite (calls_after_cons s s1 r c 0%Z cmds j Hc eq_refl eq_refl) in Hfail.
           cbn in Hfail. by rewrite (argv_of_set_finished _ r 0%Z c r' Hc) in Hfail.
        -- rewrite Hcalls. by apply (calls_after_cons s s1 r c 0%Z).
    + intros [= <- <-]. apply (executed_until _ _ _ 0 r).
      * done.
      * by apply succeeded_nothing.
      * unfold calls_after. cbn. rewrite app_nil_r, (argv_of_command _ r c Hc), Hl.
        right. by exists rc.
      * unfold calls_after. cbn. by rewrite (argv_of_command _ r c Hc).
    + intros [= <- <-]. apply (executed_until _ _ _ 0 r).
      * done.
      * by apply succeeded_nothing.
      * unfold calls_after. cbn. rewrite app_nil_r, (argv_of_command _ r c Hc), Hl.
        by left.
      * unfold calls_after. cbn. by rewrite (argv_of_command _ r c Hc).
Qed.

(** [order_commands] in a session: it leaves the session as it is, and its
    bound on the passes is not hit. *)
Lemma order_in_session_spec commands s res s' :
  order_in_session order state commands s = (res, s') →
  s' = s
  ∧ ((∃ ordered, res = Done ordered ∧
        order_commands order (objects (the_world s)) (oracle state)
          (from_option id None_id <$> commands) = Some (Return ordered))
     ∨ (∃ e, res = Failed (Exn e) ∧
          order_commands order (objects (the_world s)) (oracle state)
            (from_option id None_id <$> commands) = Some (Raise e))).
Proof.
  unfold order_in_session.
  destruct (order_commands_total order (objects (the_world s)) (oracle state)
              (from_option id None_id <$> commands)) as [[ordered|e] ->]; cbn.
  - intros [= <- <-]. split; [done|]. left. eauto.
  - intros [= <- <-]. split; [done|]. right. eauto.
Qed.

End batch_facts.

Lemma made_for_elem state s s1 items commands r :
  Forall2 (made_for state s s1) items commands → r ∈ omap id commands →
  ∃ name cfg c, (name, cfg) ∈ items ∧ (name ∉ snapshots state)
                ∧ objects (the_world s1) r = OCommand c ∧ snapshot_command name cfg c.
Proof.
  induction 1 as [|[name cfg] cmd items commands Hhead _ IH].
  { intros Hr. by apply elem_of_nil in Hr. }
  destruct cmd as [r'|].
  - change (omap id (Some r' :: commands)) with (r' :: omap id commands).
    intros [->|Hr]%elem_of_cons.
    + destruct Hhead as (_ & Hnew & c & Hc & Hcmd). exists name, cfg, c.
      split; [by left | done].
    + destruct (IH Hr) as (n & cf & c & Hin & H'). exists n, cf, c.
      split; [by right | done].
  - change (omap id (None :: commands)) with (omap id commands).
    intros Hr. destruct (IH Hr) as (n & cf & c & Hin & H'). exists n, cf, c.
    split; [by right | done].
Qed.

Lemma Command_entries_created state s s1 items commands :
  objects (the_world s1) None_id = ONone →
  Forall2 (made_for state s s1) items commands →
  Command_entries (objects (the_world s1)) (from_option id None_id <$> commands)
  = omap id commands.
Proof.
  intros HNone. unfold Command_entries.
  induction 1 as [|[name cfg] cmd items commands Hhead _ IH]; [done|].
  destruct cmd as [r|]; cbn [fmap list_fmap from_option].
  - change (omap id (Some r :: commands)) with (r :: omap id commands).
    destruct Hhead as (_ & _ & c & Hc & _).
    rewrite filter_cons_True by (unfold is_Command, id; by rewrite Hc).
    by rewrite <-IH.
  - change (omap id (None :: commands)) with (omap id commands).
    rewrite filter_cons_False; [done|]. unfold is_Command. by rewrite HNone.
Qed.

Lemma snapshot_command_requires name cfg c t :
  snapshot_command name cfg c → t ∈ _requires c → ∃ source, t = ("snapshot", source).
Proof.
  intros (_ & _ & [(m & _ & _ & Hreq)|[(_ & r & _ & _ & Hreq)
    |(_ & _ & f & source & q & _ & _ & _ & _ & Hreq)]]); rewrite Hreq.
  - intros Ht. by apply not_elem_of_empty in Ht.
  - intros Ht. by apply not_elem_of_empty in Ht.
  - intros ->%elem_of_singleton. eauto.
Qed.

(** X16.  [snapshot] for all snapshots.  When a command cannot be made from
    the configuration, [snapshot] is left with that exception and no process
    has been started; so it is when [order_commands] raises for the commands
    that were made.  Otherwise the commands are those made for the snapshots
    that are not known, new objects; [order_commands] puts them in a valid
    order, and the loop starts their processes one by one in that order,
    each once, up to the first that fails: [snapshot] ends with [Done] when
    every process returned [0], and with the exception of the first failed
    process otherwise. *)
Theorem snapshot_all_starts_each_command_once
    order launch state cfg items s res s' :
  session_ok s → cfg_snapshot cfg = Some items →
  snapshot order launch state cfg "create" "all" s = (res, s') →
  ∃ made s1,
    create_all (cmd_snapshot_create state) items s = (made, s1)
    ∧ calls (the_world s1) = calls (the_world s)
    ∧ match made with
      | Done commands =>
          Forall2 (made_for state s s1) items commands
          ∧ match order_commands order (objects (the_world s1)) (oracle state)
                    (from_option id None_id <$> commands) with
            | Some (Return ordered) =>
                ordered ≡ₚ omap id commands
                ∧ valid_order (objects (the_world s1)) (oracle state) ordered
                ∧ executed launch ordered s1 res s'
            | Some (Raise e) => res = Failed (Exn e) ∧ s' = s1
            | None => False
            end
      | Failed f => res = Failed f ∧ s' = s1
      | OutOfPasses => False
      end.
Proof.
  intros [HNone Hnext] Hcfg Hrun. unfold snapshot, snapshot_cmds in Hrun.
  rewrite Hcfg in Hrun. rewrite decide_True in Hrun by done.
  unfold mbind at 1 2, M_bind, getitem_str in Hrun. cbn in Hrun.
  rewrite decide_True in Hrun by done.
  unfold mbind at 1, M_bind in Hrun. revert Hrun.
  destruct (create_all _ items s) as [[commands|f|] s1] eqn:Hcreate.
  2: { intros [= <- <-]. exists (Failed f), s1. split; [done|]. split; [|done].
       by apply (create_all_not_Done state items s _ _ Hcreate). }
  2: { by destruct (create_all_not_Done state items s _ _ Hcreate) as [_ ?]. }
  destruct (create_all_Done state items s commands s1 Hcreate)
    as (Hmade & Hnd & Hrange & Hcalls & Hnext1 & Hframe).
  assert (objects (the_world s1) None_id = ONone) as HNone1
    by (rewrite Hframe; done).
  unfold mbind, M_bind.
  destruct (order_in_session order state commands s1) as [ro s2] eqn:Horder.
  destruct (order_in_session_spec state order commands s1 ro s2 Horder)
    as [-> [(ordered & -> & Hordered)|(e & -> & Hraise)]].
  2: { intros [= <- <-]. exists (Done commands), s1.
       split; [done|]. split; [done|]. split; [done|]. by rewrite Hraise. }
  intros Hexec. exists (Done commands), s1.
  split; [done|]. split; [done|]. split; [done|]. rewrite Hordered.
  destruct (order_commands_fuel_Return _ _ _ _ _ _ Hordered)
    as (st & Hinv & Hout & Hsame).
  rewrite (Command_entries_created state s s1 items commands HNone1 Hmade) in Hsame.
  assert (NoDup ordered) as Hndo by (rewrite Hout; apply Hinv).
  split; [by apply NoDup_Permutation|].
  split; [by eapply order_commands_Return_valid|].
  apply execute_all_executed; [done | | done].
  intros r Hr%Hsame.
  destruct (made_for_elem state s s1 items commands r Hmade Hr)
    as (n & cf & c & _ & _ & Hc & Hcmd). exists c. split; [done|]. apply Hcmd.
Qed.

Example snapshot_all_example :
  (snapshot elements_order Batch.launch Batch.state Batch.cfg "create" "all"
     Batch.start).1 = Done ()
  ∧ calls (the_world
      (snapshot elements_order Batch.launch Batch.state Batch.cfg "create" "all"
         Batch.start).2)
    = [["aptly"; "snapshot"; "create"; "base"; "from"; "mirror"; "m1"];
       ["aptly"; "snapshot"; "filter"; "base"; "filtered"; "nginx"]].
Proof. split; by vm_compute. Qed.

Lemma snapshot_all_starts_each_command_once_witness :
  ∃ made s1,
    create_all (cmd_snapshot_create Batch.state) Batch.items Batch.start = (made, s1)
    ∧ calls (the_world s1) = calls (the_world Batch.start)
    ∧ match made with
      | Done commands =>
          Forall2 (made_for Batch.state Batch.start s1) Batch.items commands
          ∧ match order_commands elements_order (objects (the_world s1))
                    (oracle Batch.state) (from_option id None_id <$> commands) with
            | Some (Return ordered) =>
                ordered ≡ₚ omap id commands
                ∧ valid_order (objects (the_world s1)) (oracle Batch.state) ordered
                ∧ executed Batch.launch ordered s1 (Done ())
                    (snapshot elements_order Batch.launch Batch.state Batch.cfg
                       "create" "all" Batch.start).2
            | Some (Raise e) =>
                Done () = Failed (Exn e)
                ∧ (snapshot elements_order Batch.launch Batch.state Batch.cfg
                     "create" "all" Batch.start).2 = s1
            | None => False
            end
      | Failed f =>
          Done () = Failed f
          ∧ (snapshot elements_order Batch.launch Batch.state Batch.cfg
               "create" "all" Batch.start).2 = s1
      | OutOfPasses => False
      end.
Proof.
  apply (snapshot_all_starts_each_command_once elements_order Batch.launch
           Batch.state Batch.cfg Batch.items Batch.start).
  - split; [reflexivity | vm_compute; lia].
  - reflexivity.
  - vm_compute. reflexivity.
Defined.

(** X13.  [cmd_snapshot_create] starts no process.  For a snapshot that is
    known it returns [None] and changes nothing; when it returns a command,
    the command is a new object, made from the first of the keys [mirror],
    [repo], [filter] of the configuration, that provides the snapshot and
    requires at most the source of the filter, and no other object is
    touched; when it raises, nothing has been made. *)
Theorem cmd_snapshot_create_makes_a_new_command state name cfg s res s' :
  cmd_snapshot_create state name cfg s = (res, s') →
  calls (the_world s') = calls (the_world s)
  ∧ (name ∈ snapshots state → res = Done None ∧ s' = s)
  ∧ (∀ r, res = Done (Some r) →
       r = next_id s ∧ next_id s' = S r
       ∧ (∀ r', r' ≠ r → objects (the_world s') r' = objects (the_world s) r')
       ∧ ∃ c, objects (the_world s') r = OCommand c ∧ snapshot_command name cfg c)
  ∧ (∀ f, res = Failed f → s' = s ∧ name ∉ snapshots state).
Proof.
  intros Hrun. destruct res as [[r|]|f|].
  - apply cmd_snapshot_create_Done in Hrun. inversion Hrun; subst.
    split; [done|]. split; [done|]. split; [|done].
    intros r' [= <-]. eauto 10.
  - apply cmd_snapshot_create_Done in Hrun. inversion Hrun; subst.
    split; [done|]. split; [done|]. split; done.
  - pose proof (cmd_snapshot_create_Failed _ _ _ _ _ _ Hrun) as ->.
    split; [done|]. split; [|split; [done|]].
    + intros Hknown. unfold cmd_snapshot_create in Hrun.
      by rewrite decide_True in Hrun.
    + intros f' _. split; [done|]. intros Hknown.
      unfold cmd_snapshot_create in Hrun. by rewrite decide_True in Hrun.
  - by apply cmd_snapshot_create_OutOfPasses in Hrun.
Qed.

Lemma cmd_snapshot_create_makes_a_new_command_witness :
  calls (the_world
     (cmd_snapshot_create Batch.state "old" (Batch.from_mirror "m1") Batch.start).2)
  = calls (the_world Batch.start).
Proof.
  destruct (cmd_snapshot_create_makes_a_new_command Batch.state "old"
              (Batch.from_mirror "m1") Batch.start _ _ (surjective_pairing _))
    as [Hcalls _].
  exact Hcalls.
Defined.

(** X14.  The commands that [snapshot] makes for the items of a
    configuration are distinct new objects, one for each snapshot that is
    not known, and making them starts no process. *)
Theorem create_all_makes_distinct_commands state items s commands s' :
  create_all (cmd_snapshot_create state) items s = (Done commands, s') →
  Forall2 (made_for state s s') items commands
  ∧ NoDup (omap id commands)
  ∧ calls (the_world s') = calls (the_world s).
Proof.
  intros Hrun.
  destruct (create_all_Done state items s commands s' Hrun) as (? & ? & _ & ? & _).
  done.
Qed.

Lemma create_all_makes_distinct_commands_witness :
  Forall2 (made_for Batch.state Batch.start
             (create_all (cmd_snapshot_create Batch.state) Batch.items Batch.start).2)
    Batch.items [Some 1; None; Some 2]
  ∧ NoDup (omap id [Some 1; None; Some 2])
  ∧ calls (the_world
       (create_all (cmd_snapshot_create Batch.state) Batch.items Batch.start).2)
    = calls (the_world Batch.start).
Proof.
  apply (create_all_makes_distinct_commands Batch.state Batch.items Batch.start).
  vm_compute. reflexivity.
Defined.

(** X15.  The loop [for cmd in ...: cmd.execute()] over distinct commands
    without result starts their processes in the order of the list, one
    process for each command, and stops at the first that fails.  It ends
    with [Done] exactly when every process returned [0], each started after
    those before it, and then every result is stored; otherwise it is left
    with the exception of the first process that did not return [0], the
    commands before it have their result, and the commands after it are not
    started. *)
Theorem execute_all_stops_at_the_first_failure launch cmds s res s' :
  NoDup cmds →
  (∀ r, r ∈ cmds → ∃ c, objects (the_world s) r = OCommand c ∧ _finished c = None) →
  execute_all launch cmds s = (res, s') →
  executed launch cmds s res s'.
Proof. apply execute_all_executed. Qed.

Lemma execute_all_stops_at_the_first_failure_witness :
  executed Halfway.launch [1; 2; 3] Halfway.start
    (Failed (Exn (CalledProcessError 2 ["aptly"; "two"])))
    (execute_all Halfway.launch [1; 2; 3] Halfway.start).2.
Proof.
  apply (execute_all_stops_at_the_first_failure Halfway.launch [1; 2; 3]
           Halfway.start).
  - apply (bool_decide_unpack _). vm_compute. reflexivity.
  - intros r Hr. apply list_elem_of_In in Hr. simpl in Hr.
    destruct Hr as [<-|[<-|[<-|[]]]]; eexists; split; reflexivity.
  - vm_compute. reflexivity.
Defined.

(** X17.  [snapshot] for one snapshot: a name that the configuration does
    not have raises [ValueError], a snapshot that is known starts nothing,
    and for any other the process of the new command is started at once:
    its requirements are not looked at, neither in the configuration nor in
    the state of the system. *)
Theorem snapshot_one_is_not_ordered order launch state cfg items name s :
  cfg_snapshot cfg = Some items → name ≠ "all" →
  (lookup_item name items = None →
     snapshot order launch state cfg "create" name s
     = (Failed (Exn (ValueError
          ("Requested snapshot is not defined in config file: " +:+ name) [])), s))
  ∧ (is_Some (lookup_item name items) → name ∈ snapshots state →
       snapshot order launch state cfg "create" name s = (Done (), s))
  ∧ (∀ snapshot_config r s1 c,
       lookup_item name items = Some snapshot_config →
       cmd_snapshot_create state name snapshot_config s = (Done (Some r), s1) →
       objects (the_world s1) r = OCommand c →
       calls (the_world (snapshot order launch state cfg "create" name s).2)
       = (calls (the_world s) ++ [cmd c])%list).
Proof.
  intros Hcfg Hname.
  assert (snapshot order launch state cfg "create" name s
          = match lookup_item name items with
            | Some snapshot_config =>
                (cmd ← cmd_snapshot_create state name snapshot_config;
                 match cmd with
                 | Some cmd => _ ← on_world (execute launch cmd); mret ()
                 | None => mret ()
                 end) s
            | None =>
                (Failed (Exn (ValueError
                   ("Requested snapshot is not defined in config file: " +:+ name)
                   [])), s)
            end) as ->.
  { unfold snapshot, snapshot_cmds. rewrite Hcfg.
    rewrite decide_True by done. unfold mbind at 1 2, M_bind, getitem_str. cbn.
    rewrite decide_False by done. by destruct (lookup_item name items). }
  split; [by intros ->|]. split.
  - intros [snapshot_config ->] Hknown. unfold mbind, M_bind, cmd_snapshot_create.
    by rewrite decide_True.
  - intros snapshot_config r s1 c -> Hcreate Hc. unfold mbind at 1, M_bind.
    rewrite Hcreate. apply cmd_snapshot_create_Done in Hcreate.
    inversion Hcreate as [|c' s1' Hnew Hcmd Hobj Hother Hcalls Hnext]; subst.
    rewrite Hobj in Hc. injection Hc as ->.
    destruct Hcmd as (_ & Hfin & _).
    destruct (execute_fresh launch (next_id s) (the_world s1) c Hobj Hfin)
      as [Hex _].
    unfold mbind, M_bind, on_world.
    destruct (execute launch (next_id s) (the_world s1)) as [[v|e] w]; cbn in *;
      by rewrite Hex, Hcalls.
Qed.

Lemma snapshot_one_is_not_ordered_witness :
  calls (the_world
     (snapshot elements_order Batch.launch Batch.state Batch.cfg "create" "filtered"
        Batch.start).2)
  = (calls (the_world Batch.start)
     ++ [["aptly"; "snapshot"; "filter"; "base"; "filtered"; "nginx"]])%list.
Proof.
  destruct (snapshot_one_is_not_ordered elements_order Batch.launch Batch.state
              Batch.cfg Batch.items "filtered" Batch.start eq_refl)
    as (_ & _ & Hone); [discriminate|].
  apply (Hone (Batch.from_filter "base" "nginx") 1
           (cmd_snapshot_create Batch.state "filtered"
              (Batch.from_filter "base" "nginx") Batch.start).2
           (add_require ("snapshot", "base")
              (add_provide ("snapshot", "filtered")
                 (Command__init__
                    ["aptly"; "snapshot"; "filter"; "base"; "filtered"; "nginx"])))).
  - reflexivity.
  - vm_compute. reflexivity.
  - reflexivity.
Defined.

(** X18.  The tables [snapshot_cmds] and [mirror_cmds] have no entry
    [drop]: a task that is not [create] (for mirrors, not [create] and not
    [update]) raises [KeyError] before anything is made or started. *)
Theorem task_without_entry_is_a_KeyError order keys_order launch state cfg task name s :
  (is_Some (cfg_snapshot cfg) → task ≠ "create" →
     snapshot order launch state cfg task name s = (Failed (KeyError_str task), s))
  ∧ (is_Some (cfg_mirror cfg) → task ≠ "create" → task ≠ "update" →
       mirror keys_order launch state cfg task name s
       = (Failed (KeyError_str task), s)).
Proof.
  split.
  - intros [items Hcfg] Htask. unfold snapshot, snapshot_cmds.
    rewrite Hcfg, decide_False by done. done.
  - intros [items Hcfg] Hc Hu. unfold mirror, mirror_cmds.
    rewrite Hcfg. rewrite !decide_False by done. done.
Qed.

Lemma task_without_entry_is_a_KeyError_witness :
  snapshot elements_order Batch.launch Batch.state Batch.cfg "drop" "all" Batch.start
  = (Failed (KeyError_str "drop"), Batch.start)
  ∧ mirror elements_dict_order Batch.launch Batch.state Batch.cfg "drop" "all"
      Batch.start
    = (Failed (KeyError_str "drop"), Batch.start).
Proof.
  destruct (task_without_entry_is_a_KeyError elements_order elements_dict_order
              Batch.launch Batch.state Batch.cfg "drop" "all" Batch.start)
    as [Hs Hm].
  split; [apply Hs | apply Hm]; try discriminate; by eexists.
Defined.

(** X19.  A configuration of a mirror without [gpg-keys] leaves the local
    variable [keys_urls] of [add_gpg_keys] unbound: [add_gpg_keys] raises
    [UnboundLocalError], and so do [cmd_mirror_create] for a mirror that is
    not known and [cmd_mirror_update] for a mirror that is, without starting
    a process. *)
Theorem mirror_without_gpg_keys_fails keys_order launch state name mirror_config s :
  mirror_gpg_keys mirror_config = None →
  add_gpg_keys keys_order launch state mirror_config s
    = (Failed (UnboundLocalError "keys_urls"), s)
  ∧ (name ∉ mirrors state →
       cmd_mirror_create keys_order launch state name mirror_config s
       = (Failed (UnboundLocalError "keys_urls"), s))
  ∧ (name ∈ mirrors state →
       cmd_mirror_update keys_order launch state name mirror_config s
       = (Failed (UnboundLocalError "keys_urls"), s)).
Proof.
  intros Hkeys. unfold cmd_mirror_create, cmd_mirror_update, add_gpg_keys.
  rewrite Hkeys. split; [done|]. split.
  - intros Hnew. by rewrite decide_False.
  - intros Hknown. rewrite decide_False; [done|]. by intros ?.
Qed.

Lemma mirror_without_gpg_keys_fails_witness :
  mirror elements_dict_order Batch.launch Batch.state Batch.cfg "create" "m2"
    Batch.start
  = (Failed (UnboundLocalError "keys_urls"), Batch.start).
Proof.
  destruct (mirror_without_gpg_keys_fails elements_dict_order Batch.launch
              Batch.state "m2" Batch.no_gpg_keys Batch.start eq_refl)
    as (_ & Hcreate & _).
  apply Hcreate. apply (bool_decide_unpack _). vm_compute. reflexivity.
Defined.

(** ** The keys of a mirror *)

Lemma pair_keys_urls_notin keys : ∀ x urls m k,
  k ∉ keys → pair_keys_urls x keys urls m !! k = m !! k.
Proof.
  induction keys as [|key keys IH]; intros x urls m k Hk; cbn [pair_keys_urls]; [done|].
  apply not_elem_of_cons in Hk as [Hne Hk].
  rewrite IH by done. by rewrite lookup_insert_ne.
Qed.

Lemma pair_keys_urls_last keys : ∀ x urls m i k,
  keys !! i = Some k → k ∉ drop (S i) keys →
  pair_keys_urls x keys urls m !! k = Some (urls !! (x + i)%nat).
Proof.
  induction keys as [|key keys IH]; intros x urls m i k Hi Hlast; [done|].
  cbn [pair_keys_urls]. destruct i as [|i]; cbn in Hi, Hlast.
  - injection Hi as ->. rewrite drop_0 in Hlast.
    rewrite pair_keys_urls_notin, lookup_insert_eq by done.
    rewrite Nat.add_0_r. case_decide as Hx; [done|].
    by rewrite lookup_ge_None_2 by lia.
  - rewrite (IH (S x) urls _ i k Hi Hlast). do 2 f_equal. lia.
Qed.

Lemma pair_keys_urls_dom keys : ∀ x urls m k,
  is_Some (pair_keys_urls x keys urls m !! k) → k ∈ keys ∨ is_Some (m !! k).
Proof.
  induction keys as [|key keys IH]; intros x urls m k; cbn [pair_keys_urls]; [by right|].
  intros [Hk|Hk]%IH; [left; by right|].
  destruct (decide (key = k)) as [->|Hne]; [left; by left|].
  rewrite lookup_insert_ne in Hk by done. by right.
Qed.

Lemma pair_keys_urls_url keys : ∀ x urls m k url,
  pair_keys_urls x keys urls m !! k = Some (Some url) →
  url ∈ urls ∨ m !! k = Some (Some url).
Proof.
  induction keys as [|key keys IH]; intros x urls m k url; cbn [pair_keys_urls];
    [by right|].
  intros [Hu|Hm]%IH; [by left|].
  destruct (decide (key = k)) as [->|Hne].
  - rewrite lookup_insert_eq in Hm. case_decide; [|done].
    injection Hm as Hm. left. by eapply list_elem_of_lookup_2.
  - rewrite lookup_insert_ne in Hm by done. by right.
Qed.

Lemma keys_without_urls_lookup keys : ∀ m k,
  keys_without_urls keys m !! k = if decide (k ∈ keys) then Some None else m !! k.
Proof.
  induction keys as [|key keys IH]; intros m k; cbn [keys_without_urls].
  - rewrite decide_False; [done | apply not_elem_of_nil].
  - rewrite IH. destruct (decide (k ∈ keys)) as [Hin|Hout].
    + rewrite decide_True; [done | by right].
    + destruct (decide (k = key)) as [->|Hne].
      * rewrite lookup_insert_eq, decide_True; [done | by left].
      * rewrite lookup_insert_ne by done.
        rewrite decide_False; [done|]. by intros [?|?]%elem_of_cons.
Qed.

(** X20.  The dictionary [keys_urls] of [add_gpg_keys] pairs the key at
    position [i] with the url at position [i], and with [None] when there
    are fewer urls; of a key that stands several times in the list the last
    position counts.  Without [gpg-urls] every key is paired with [None]. *)
Theorem keys_are_paired_with_urls_by_position keys urls i k :
  keys !! i = Some k → k ∉ drop (S i) keys →
  pair_keys_urls 0 keys urls ∅ !! k = Some (urls !! i)
  ∧ keys_without_urls keys ∅ !! k = Some None.
Proof.
  intros Hi Hlast. split.
  - by rewrite (pair_keys_urls_last keys 0 urls ∅ i k Hi Hlast).
  - rewrite keys_without_urls_lookup, decide_True; [done|].
    by eapply list_elem_of_lookup_2.
Qed.

Lemma keys_are_paired_with_urls_by_position_witness :
  pair_keys_urls 0 ["A"; "B"; "A"] ["u0"; "u1"] ∅ !! "A" = Some (["u0"; "u1"] !! 2)
  ∧ keys_without_urls ["A"; "B"; "A"] ∅ !! "A" = Some None.
Proof.
  apply (keys_are_paired_with_urls_by_position ["A"; "B"; "A"] ["u0"; "u1"] 2 "A").
  - reflexivity.
  - apply (bool_decide_unpack _). vm_compute. reflexivity.
Defined.

Section mirror_facts.

Context (keys_order : dict_order).
Context (launch : list (list string) → list string → outcome Z).
Context (state : SystemStateReader).

Local Open Scope list_scope.

Lemma check_call_world args w :
  calls (check_call launch args w).2 = calls w ++ [args]
  ∧ objects (check_call launch args w).2 = objects w.
Proof.
  unfold check_call. destruct (launch (calls w) args) as [rc|e]; [case_decide|]; done.
Qed.

(** What one round of the loop over the keys starts. *)
Lemma fetch_key_calls keys_urls key s res s' :
  fetch_key launch state keys_urls key s = (res, s') →
  objects (the_world s') = objects (the_world s) ∧ next_id s' = next_id s
  ∧ (key ∈ gpg_keys state → s' = s ∧ res = Done ())
  ∧ ∃ started,
      calls (the_world s') = calls (the_world s) ++ started
      ∧ (started = []
         ∨ ((key ∉ gpg_keys state)
            ∧ (started = [recv_keys key]
               ∨ ∃ url, keys_urls !! key = Some (Some url) ∧ url ≠ ""
                        ∧ started = [recv_keys key; wget_key url]))).
Proof.
  unfold fetch_key. case_decide as Hknown.
  { intros [= <- <-]. split; [done|]. split; [done|]. split; [done|].
    exists []. by rewrite app_nil_r; auto. }
  pose proof (check_call_world (recv_keys key) (the_world s)) as [Hcalls Hobj].
  destruct (check_call launch (recv_keys key) (the_world s)) as [[v|e] w] eqn:Hrecv;
    cbn in Hcalls, Hobj.
  - intros [= <- <-]. cbn. split; [done|]. split; [done|]. split; [done|].
    exists [recv_keys key]. split; [done|]. right. split; [done|]. by left.
  - assert (∀ f, (Failed f : result unit,
                  {| the_world := w; next_id := next_id s |}) = (res, s') →
        objects (the_world s') = objects (the_world s) ∧ next_id s' = next_id s
        ∧ (key ∈ gpg_keys state → s' = s ∧ res = Done ())
        ∧ ∃ started,
            calls (the_world s') = calls (the_world s) ++ started
            ∧ (started = []
               ∨ ((key ∉ gpg_keys state)
                  ∧ (started = [recv_keys key]
                     ∨ ∃ url, keys_urls !! key = Some (Some url) ∧ url ≠ ""
                              ∧ started = [recv_keys key; wget_key url]))))
      as Hfailed.
    { intros f [= <- <-]. cbn. split; [done|]. split; [done|]. split; [done|].
      exists [recv_keys key]. split; [done|]. right. split; [done|]. by left. }
    destruct e as [| |msg args|msg|msg|k|rc args]; try apply Hfailed.
    destruct (keys_urls !! key) as [[url|]|] eqn:Hurl; cbn [truthy];
      try apply Hfailed.
    case_bool_decide as Hempty; [|apply Hfailed].
    pose proof (check_call_world (wget_key url) w) as [Hcalls2 Hobj2].
    unfold mbind, M_bind, on_world. cbn.
    destruct (check_call launch (wget_key url) w) as [[v|e] w2]; cbn in *;
      intros [= <- <-]; cbn.
    all: split; [congruence|]; split; [done|]; split; [done|].
    all: exists [recv_keys key; wget_key url].
    all: split; [by rewrite Hcalls2, Hcalls, <-app_assoc|].
    all: right; split; [done|]; right; eauto.
Qed.

Lemma fetch_keys_calls keys_urls keys : ∀ s res s',
  fetch_keys launch state keys_urls keys s = (res, s') →
  objects (the_world s') = objects (the_world s) ∧ next_id s' = next_id s
  ∧ ((∀ key, key ∈ keys → key ∈ gpg_keys state) → s' = s ∧ res = Done ())
  ∧ ∃ started,
      calls (the_world s') = calls (the_world s) ++ started
      ∧ Forall (λ argv, ∃ key, key ∈ keys ∧ (key ∉ gpg_keys state)
                  ∧ (argv = recv_keys key
                     ∨ ∃ url, keys_urls !! key = Some (Some url) ∧ url ≠ ""
                              ∧ argv = wget_key url)) started.
Proof.
  induction keys as [|key keys IH]; intros s res s'; cbn [fetch_keys].
  - intros [= <- <-]. split; [done|]. split; [done|]. split; [done|].
    exists []. by rewrite app_nil_r.
  - unfold mbind, M_bind.
    destruct (fetch_key launch state keys_urls key s) as [r1 s1] eqn:Hkey.
    destruct (fetch_key_calls keys_urls key s r1 s1 Hkey)
      as (Hobj1 & Hnext1 & Hknown1 & started1 & Hcalls1 & Hstarted1).
    assert (Forall (λ argv, ∃ key0, key0 ∈ key :: keys ∧ (key0 ∉ gpg_keys state)
                  ∧ (argv = recv_keys key0
                     ∨ ∃ url, keys_urls !! key0 = Some (Some url) ∧ url ≠ ""
                              ∧ argv = wget_key url)) started1) as Hforall1.
    { destruct Hstarted1 as [->|[Hnew [->|(url & Hurl & Hne & ->)]]].
      - constructor.
      - constructor; [|constructor]. exists key. split; [by left|]. auto.
      - constructor; [|constructor; [|constructor]]; exists key;
          (split; [by left|]); (split; [done|]); [by left | right; eauto]. }
    destruct r1 as [[]|f|].
    + intros Hrest.
      destruct (IH s1 res s' Hrest) as (Hobj & Hnext & Hknown & started & Hcalls & Hst).
      split; [congruence|]. split; [congruence|]. split.
      * intros Hall. destruct Hknown1 as [-> _]; [apply Hall; by left|].
        apply Hknown. intros k Hk. apply Hall. by right.
      * exists (started1 ++ started). split; [by rewrite Hcalls, Hcalls1, <-app_assoc|].
        apply Forall_app. split; [done|].
        eapply list.Forall_impl; [done|]. intros argv (k & Hk & H'). exists k.
        split; [by right | done].
    + intros [= <- <-]. split; [done|]. split; [done|]. split.
      * intros Hall. destruct Hknown1 as [_ ?]; [apply Hall; by left | done].
      * eauto.
    + intros [= <- <-]. split; [done|]. split; [done|]. split.
      * intros Hall. destruct Hknown1 as [_ ?]; [apply Hall; by left | done].
      * eauto.
Qed.

End mirror_facts.

(** X21.  [add_gpg_keys] touches no object, and the processes it starts
    are requests of configured keys that the oracle does not know and
    downloads of configured urls; when every configured key is known it
    starts nothing. *)
Theorem add_gpg_keys_fetches_only_unknown_keys
    keys_order launch state mirror_config keys s res s' :
  mirror_gpg_keys mirror_config = Some keys →
  add_gpg_keys keys_order launch state mirror_config s = (res, s') →
  objects (the_world s') = objects (the_world s) ∧ next_id s' = next_id s
  ∧ ((∀ key, key ∈ keys → key ∈ gpg_keys state) → s' = s ∧ res = Done ())
  ∧ ∃ started,
      calls (the_world s') = (calls (the_world s) ++ started)%list
      ∧ Forall (fetches state keys (mirror_gpg_urls mirror_config)) started.
Proof.
  intros Hkeys. unfold add_gpg_keys. rewrite Hkeys.
  set (keys_urls := match mirror_gpg_urls mirror_config with
                    | Some urls => pair_keys_urls 0 keys urls ∅
                    | None => keys_without_urls keys ∅
                    end).
  intros Hrun.
  assert (∀ key, key ∈ keys_of keys_order keys_urls → key ∈ keys) as Hdom.
  { intros key. rewrite keys_of_perm, elem_of_elements, elem_of_dom.
    unfold keys_urls. destruct (mirror_gpg_urls mirror_config) as [urls|].
    - intros [?|[? Hempty]]%pair_keys_urls_dom; [done|]. by rewrite lookup_empty in Hempty.
    - rewrite keys_without_urls_lookup. case_decide; [done|].
      rewrite lookup_empty. by intros [? ?]. }
  destruct (fetch_keys_calls launch state keys_urls _ s res s' Hrun)
    as (Hobj & Hnext & Hknown & started & Hcalls & Hstarted).
  split; [done|]. split; [done|]. split.
  - intros Hall. apply Hknown. intros key Hk. by apply Hall, Hdom.
  - exists started. split; [done|].
    eapply list.Forall_impl; [done|]. intros argv (key & Hk & Hnew & Hargv).
    exists key. split; [by apply Hdom|]. split; [done|].
    destruct Hargv as [->|(url & Hurl & Hne & ->)]; [by left | right].
    unfold keys_urls in Hurl. destruct (mirror_gpg_urls mirror_config) as [urls|].
    + apply pair_keys_urls_url in Hurl as [Hin|Hempty];
        [|by rewrite lookup_empty in Hempty]. by exists url, urls.
    + rewrite keys_without_urls_lookup, lookup_empty in Hurl. by case_decide.
Qed.

Lemma add_gpg_keys_fetches_only_unknown_keys_witness :
  add_gpg_keys elements_dict_order Batch.launch Batch.state
    (Batch.with_keys ["0123456789ABCDEF"] None) Batch.start
  = (Done (), Batch.start).
Proof.
  destruct (add_gpg_keys_fetches_only_unknown_keys elements_dict_order Batch.launch
              Batch.state (Batch.with_keys ["0123456789ABCDEF"] None)
              ["0123456789ABCDEF"] Batch.start _ _ eq_refl (surjective_pairing _))
    as (_ & _ & Hknown & _).
  destruct Hknown as [Hs Hres].
  - intros key Hk. apply list_elem_of_In in Hk. simpl in Hk.
    destruct Hk as [<-|[]]. apply (bool_decide_unpack _). vm_compute. reflexivity.
  - rewrite (surjective_pairing (add_gpg_keys _ _ _ _ _)). by rewrite Hs, Hres.
Defined.

Example cmd_mirror_create_example :
  (cmd_mirror_create elements_dict_order Batch.launch Batch.state "m2"
     (Batch.with_keys ["0123456789ABCDEF"; "FEDCBA9876543210"] None) Batch.start).1
  = Done ()
  ∧ calls (the_world
      (cmd_mirror_create elements_dict_order Batch.launch Batch.state "m2"
         (Batch.with_keys ["0123456789ABCDEF"; "FEDCBA9876543210"] None)
         Batch.start).2)
    = [recv_keys "FEDCBA9876543210";
       ["aptly"; "mirror"; "create"; "-with-sources"; "-architectures=amd64,i386";
        "m2"; "http://deb.example.org/debian"; "stable"; "main"; "contrib"]].
Proof. split; by vm_compute. Qed.

(** X22.  [cmd_mirror_create] for a mirror that is not known looks for the
    keys first and at the configuration afterwards: when [archive],
    [distribution] or [components] is missing, it raises [KeyError] after
    the keys have been fetched and [aptly] is not started; when they are
    there, one more process is started, [aptly mirror create] with the flags,
    the name, the archive, the distribution and the components. *)
Theorem cmd_mirror_create_fetches_keys_first
    keys_order launch state name mirror_config s s1 :
  name ∉ mirrors state →
  add_gpg_keys keys_order launch state mirror_config s = (Done (), s1) →
  (mirror_archive mirror_config = None →
     cmd_mirror_create keys_order launch state name mirror_config s
     = (Failed (KeyError_str "archive"), s1))
  ∧ (is_Some (mirror_archive mirror_config) →
     mirror_distribution mirror_config = None →
       cmd_mirror_create keys_order launch state name mirror_config s
       = (Failed (KeyError_str "distribution"), s1))
  ∧ (is_Some (mirror_archive mirror_config) →
     is_Some (mirror_distribution mirror_config) →
     mirror_components mirror_config = None →
       cmd_mirror_create keys_order launch state name mirror_config s
       = (Failed (KeyError_str "components"), s1))
  ∧ (∀ archive distribution components,
       mirror_archive mirror_config = Some archive →
       mirror_distribution mirror_config = Some distribution →
       mirror_components mirror_config = Some components →
       calls (the_world
          (cmd_mirror_create keys_order launch state name mirror_config s).2)
       = (calls (the_world s1)
          ++ [["aptly"; "mirror"; "create"] ++ mirror_create_flags mirror_config
              ++ [name; archive; distribution] ++ components])%list).
Proof.
  intros Hnew Hkeys.
  assert (cmd_mirror_create keys_order launch state name mirror_config s
          = (archive ← getitem_str "archive" (mirror_archive mirror_config);
             distribution ← getitem_str "distribution"
                              (mirror_distribution mirror_config);
             components ← getitem_str "components"
                            (mirror_components mirror_config);
             _ ← on_world (check_call launch
                    (((((["aptly"; "mirror"; "create"]
                         ++ mirror_create_flags mirror_config) ++ [name])
                       ++ [archive]) ++ [distribution]) ++ components)%list);
             mret ()) s1) as ->.
  { unfold cmd_mirror_create. rewrite decide_False by done.
    unfold mbind at 1, M_bind. by rewrite Hkeys. }
  split; [by intros ->|]. split; [by intros [a ->] ->|].
  split; [by intros [a ->] [d ->] ->|].
  intros archive distribution components -> -> ->.
  unfold mbind, M_bind, getitem_str, on_world. cbn.
  match goal with
  | |- context [check_call launch ?args (the_world s1)] =>
      pose proof (check_call_world launch args (the_world s1)) as [Hcalls _];
      destruct (check_call launch args (the_world s1)) as [[v|e] w]
  end; cbn in *; rewrite Hcalls; by rewrite <-!app_assoc.
Qed.

Lemma cmd_mirror_create_fetches_keys_first_witness :
  cmd_mirror_create elements_dict_order Batch.launch Batch.state "m2"
    {| mirror_gpg_keys := Some []; mirror_gpg_urls := None; mirror_sources := None;
       mirror_udeb := None; mirror_architectures := None; mirror_archive := None;
       mirror_distribution := None; mirror_components := None |} Batch.start
  = (Failed (KeyError_str "archive"), Batch.start).
Proof.
  destruct (cmd_mirror_create_fetches_keys_first elements_dict_order Batch.launch
              Batch.state "m2"
              {| mirror_gpg_keys := Some []; mirror_gpg_urls := None;
                 mirror_sources := None; mirror_udeb := None;
                 mirror_architectures := None; mirror_archive := None;
                 mirror_distribution := None; mirror_components := None |}
              Batch.start Batch.start) as [Harchive _].
  - apply (bool_decide_unpack _). vm_compute. reflexivity.
  - vm_compute. reflexivity.
  - apply Harchive. reflexivity.
Defined.

Lemma for_each_mirror_known keys_order launch state items : ∀ s,
  (∀ name mirror_config, (name, mirror_config) ∈ items → name ∈ mirrors state) →
  for_each_mirror (cmd_mirror_create keys_order launch state) items s = (Done (), s).
Proof.
  induction items as [|[name mirror_config] items IH]; intros s Hknown;
    cbn [for_each_mirror]; [done|].
  unfold mbind, M_bind, cmd_mirror_create.
  rewrite decide_True by (eapply Hknown; by left). cbn.
  apply IH. intros n c Hin. eapply Hknown. by right.
Qed.

Lemma create_all_known state items : ∀ s,
  (∀ name snapshot_config, (name, snapshot_config) ∈ items → name ∈ snapshots state) →
  create_all (cmd_snapshot_create state) items s
  = (Done (replicate (length items) None), s).
Proof.
  induction items as [|[name snapshot_config] items IH]; intros s Hknown;
    cbn [create_all]; [done|].
  unfold mbind, M_bind, cmd_snapshot_create.
  rewrite decide_True by (eapply Hknown; by left). cbn.
  rewrite IH; [done|]. intros n c Hin. eapply Hknown. by right.
Qed.

Lemma Command_entries_None h n :
  h None_id = ONone →
  Command_entries h (from_option id None_id <$> replicate n None) = [].
Proof.
  intros HNone. unfold Command_entries. induction n as [|n IH]; [done|].
  change (from_option id None_id <$> replicate (S n) (@None ref))
    with (None_id :: (from_option id None_id <$> replicate n (@None ref))).
  rewrite filter_cons_False; [done|]. unfold is_Command. by rewrite HNone.
Qed.

(** X23.  When every snapshot of the configuration is known, [snapshot] for
    all snapshots makes and starts nothing; when every mirror of the
    configuration is known, so does [mirror] with the task [create], whatever
    the configurations of the mirrors hold. *)
Theorem nothing_to_do_when_all_is_known order keys_order launch state cfg s :
  (∀ items,
     cfg_snapshot cfg = Some items → session_ok s →
     (∀ name snapshot_config, (name, snapshot_config) ∈ items →
        name ∈ snapshots state) →
     snapshot order launch state cfg "create" "all" s = (Done (), s))
  ∧ (∀ items,
       cfg_mirror cfg = Some items →
       (∀ name mirror_config, (name, mirror_config) ∈ items →
          name ∈ mirrors state) →
       mirror keys_order launch state cfg "create" "all" s = (Done (), s)).
Proof.
  split.
  - intros items Hcfg [HNone _] Hknown. unfold snapshot, snapshot_cmds.
    rewrite Hcfg. rewrite decide_True by done.
    unfold mbind at 1 2, M_bind, getitem_str. cbn.
    rewrite decide_True by done.
    unfold mbind at 1, M_bind. rewrite (create_all_known state items s Hknown).
    unfold mbind, M_bind, order_in_session.
    rewrite order_commands_Command_entries.
    by rewrite (Command_entries_None _ _ HNone).
  - intros items Hcfg Hknown. unfold mirror, mirror_cmds.
    rewrite Hcfg. rewrite decide_True by done.
    unfold mbind at 1 2, M_bind, getitem_str. cbn.
    rewrite decide_True by done. by apply for_each_mirror_known.
Qed.

Lemma nothing_to_do_when_all_is_known_witness :
  mirror elements_dict_order Batch.launch Batch.state
    {| cfg_snapshot := None; cfg_mirror := Some [("m1", Batch.no_gpg_keys)] |}
    "create" "all" Batch.start
  = (Done (), Batch.start).
Proof.
  destruct (nothing_to_do_when_all_is_known elements_order elements_dict_order
              Batch.launch Batch.state
              {| cfg_snapshot := None; cfg_mirror := Some [("m1", Batch.no_gpg_keys)] |}
              Batch.start) as [_ Hmirror].
  apply (Hmirror [("m1", Batch.no_gpg_keys)] eq_refl).
  intros name mirror_config Hin. apply list_elem_of_In in Hin. simpl in Hin.
  destruct Hin as [[= <- <-]|[]]. apply (bool_decide_unpack _). vm_compute. reflexivity.
Defined.

(** X24.  The default of the parameter [has_dependency_cb] is a function
    without parameters: when the first command of the list has a
    requirement, [order_commands] called without callback raises
    [TypeError] at the first visit. *)
Theorem default_callback_raises order h c o commands :
  h c = OCommand o → _requires o ≠ ∅ →
  order_commands order h default_has_dependency_cb (c :: commands)
  = Some (Raise (TypeError "<lambda>() takes no arguments (1 given)")).
Proof.
  intros Hc Hreq. unfold order_commands, order_commands_fuel, Command_entries.
  rewrite filter_cons_True by (unfold is_Command; by rewrite Hc).
  cbn [length while_loop initial_state something_changed scan].
  unfold visit at 1, getattr.
  cbn [clear_changed scheduled_cmdids have_requirements].
  rewrite decide_False by apply not_elem_of_nil. rewrite Hc.
  cbn -[finish build_commands_by_id].
  destruct (enum order c (_requires o)) as [|req reqs] eqn:Henum.
  { destruct Hreq. apply leibniz_equiv, elements_empty_iff, Permutation_nil_r.
    by rewrite <-(enum_perm order c), Henum. }
  cbn [can_schedule]. by rewrite decide_False by apply not_elem_of_empty.
Qed.

Lemma default_callback_raises_witness :
  order_commands elements_order Scenario.store default_has_dependency_cb [2; 1]
  = Some (Raise (TypeError "<lambda>() takes no arguments (1 given)")).
Proof.
  apply (default_callback_raises elements_order Scenario.store 2 Scenario.B [1]).
  - reflexivity.
  - apply (bool_decide_unpack _). vm_compute. reflexivity.
Defined.
